(** * dhmma: the resumable, retrying, pooled audio downloader

    A shallow embedding of [latest.py] (the current revision of the
    downloader) and of the transfer routine of [working.py] (the previous
    revision), with the properties of the download manager stated against
    it.

    Conventions of the embedding.
    - A catalog entry is the Python dict built by [fetch_audio_list]: six
      keys, always present.  It is a record here; the three status strings
      are an enumeration.
    - Python integers are unbounded: [Z].
    - The dict of one entry is shared by the worker that downloads it and by
      the list that [save_cache] serialises.  Mutation in place is modelled
      by threading the entry through every routine that receives it and by
      writing it back into the catalog at its own index.
    - The outside world (file system, journal file, cache file, network,
      clock) is an explicit state.  The server is an oracle: the reply to
      the n-th request of a run may be anything.
    - The operating system is assumed not to fail on [os.makedirs],
      [open] and on writing the cache and the journal: those calls are total
      here.  Progress bars and console output are not modelled. *)

From Stdlib Require Import ZArith Lia Strings.Byte.
From stdpp Require Import gmap strings list.
From Stdlib Require Import Ascii.

(** ** Configuration (module level constants of [latest.py]) *)

Definition max_threads : nat := 3.
Definition max_retries : nat := 3.
Definition retry_delay : Z := 5.

(** ** Data model *)

Inductive Status := Pending | Complete | Failed.

Global Instance Status_eq_dec : EqDecision Status.
Proof. solve_decision. Defined.

Record FileRecord := mkRecord {
  category : string;
  filename : string;
  url : string;
  downloaded_bytes : Z;
  total_size : Z;
  status : Status;
}.

Definition set_downloaded_bytes (v : Z) (item : FileRecord) : FileRecord :=
  mkRecord (category item) (filename item) (url item) v (total_size item) (status item).

Definition set_total_size (v : Z) (item : FileRecord) : FileRecord :=
  mkRecord (category item) (filename item) (url item) (downloaded_bytes item) v (status item).

Definition set_status (v : Status) (item : FileRecord) : FileRecord :=
  mkRecord (category item) (filename item) (url item) (downloaded_bytes item) (total_size item) v.

(** Exceptions that reach the retry wrapper.  [HTTPError] is what
    [raise_for_status] raises; the two others stand for whatever
    [requests.get] or the body iterator raise (reset, timeout, ...). *)
Inductive Exn :=
  | ConnectionError (detail : string)
  | HTTPError (code : Z)
  | StreamError (detail : string).

Global Instance Exn_eq_dec : EqDecision Exn.
Proof. solve_decision. Defined.

Inductive Method := GET | HEAD.

(** [req_range = Some k] is the header [Range: bytes=k-]; [None] is the
    empty header dict. *)
Record Request := mkRequest {
  req_method : Method;
  req_url : string;
  req_range : option Z;
}.

(** A reply to a streamed GET: the status line, the chunks that
    [iter_content] yields, and the exception that ends the iteration early,
    if any. *)
Record Response := mkResponse {
  status_code : Z;
  chunks : list (list byte);
  stream_error : option Exn;
}.

Inductive GetOutcome :=
  | GetRaises (e : Exn)
  | GetReturns (r : Response).

(** A reply to the HEAD probe: an exception, or the parsed content-length
    header when there is one. *)
Inductive HeadOutcome :=
  | HeadRaises (e : Exn)
  | HeadReturns (content_length : option Z).

(** The server, as seen by one run: the reply depends on how many requests
    were issued before and on the request itself. *)
Record Net := mkNet {
  get_reply : nat -> Request -> GetOutcome;
  head_reply : nat -> Request -> HeadOutcome;
}.

Inductive Mode := ab | wb.

(** What the process can observe or change outside its own memory. *)
Record World := mkWorld {
  files : gmap string (list byte);        (* regular files: path to content *)
  dirs : gset string;                     (* directories *)
  journal : list (string * Exn);          (* lines of failed_downloads.txt *)
  cache : option (list FileRecord);       (* content of file_list_cache.json *)
  requests : list Request;                (* every request sent, oldest first *)
  sleeps : list Z;                        (* every time.sleep, oldest first *)
}.

Definition set_files (f : gmap string (list byte)) (w : World) : World :=
  mkWorld f (dirs w) (journal w) (cache w) (requests w) (sleeps w).

Definition set_dirs (d : gset string) (w : World) : World :=
  mkWorld (files w) d (journal w) (cache w) (requests w) (sleeps w).

Definition set_journal (j : list (string * Exn)) (w : World) : World :=
  mkWorld (files w) (dirs w) j (cache w) (requests w) (sleeps w).

Definition set_cache (c : option (list FileRecord)) (w : World) : World :=
  mkWorld (files w) (dirs w) (journal w) c (requests w) (sleeps w).

Definition set_requests (r : list Request) (w : World) : World :=
  mkWorld (files w) (dirs w) (journal w) (cache w) r (sleeps w).

Definition set_sleeps (s : list Z) (w : World) : World :=
  mkWorld (files w) (dirs w) (journal w) (cache w) (requests w) s.

(** ** Paths and the file system *)

Definition starts_with_sep (s : string) : bool :=
  match s with
  | String c _ => Ascii.eqb c "/"%char
  | EmptyString => false
  end.

Fixpoint ends_with_sep (s : string) : bool :=
  match s with
  | EmptyString => false
  | String c EmptyString => Ascii.eqb c "/"%char
  | String _ rest => ends_with_sep rest
  end.

(** [os.path.join] on two components (posixpath). *)
Definition path_join (a b : string) : string :=
  if starts_with_sep b then b
  else if String.eqb a "" || ends_with_sep a then a +:+ b
  else a +:+ "/" +:+ b.

(** [os.makedirs(path, exist_ok=True)]. *)
Definition makedirs (path : string) (w : World) : World :=
  set_dirs ({[path]} ∪ dirs w) w.

(** [os.path.exists(path)]: a file or a directory. *)
Definition path_exists (path : string) (w : World) : bool :=
  bool_decide (is_Some (files w !! path)) || bool_decide (path ∈ dirs w).

(** [os.path.getsize(path)] of a regular file. *)
Definition getsize (path : string) (w : World) : Z :=
  match files w !! path with
  | Some content => Z.of_nat (length content)
  | None => 0
  end.

(** [open(path, mode)]: ['wb'] truncates or creates, ['ab'] creates when
    the file is missing and keeps the content otherwise. *)
Definition open_file (path : string) (mode : Mode) (w : World) : World :=
  match mode with
  | wb => set_files (<[path := []]> (files w)) w
  | ab => set_files (<[path := default [] (files w !! path)]> (files w)) w
  end.

(** [f.write(chunk)] on a file opened by [open_file]. *)
Definition write_file (path : string) (chunk : list byte) (w : World) : World :=
  set_files (<[path := default [] (files w !! path) ++ chunk]> (files w)) w.

Definition send (req : Request) (w : World) : World :=
  set_requests (requests w ++ [req]) w.

Definition sleep (d : Z) (w : World) : World :=
  set_sleeps (sleeps w ++ [d]) w.

(** [save_cache]: the whole list is dumped over the cache file. *)
Definition save_cache (file_list : list FileRecord) (w : World) : World :=
  set_cache (Some file_list) w.

(** ** The retry decorator

    [retry_request] wraps any fallible operation.  The operation acts on a
    state [St]; [retries] and [delay] are the globals [max_retries] and
    [retry_delay], read by the wrapper at call time.  The arguments of the
    wrapped call are fixed when the wrapper is entered: every attempt runs
    the same [func].  A loop that ends without returning (only when
    [retries] is 0) makes the wrapper return [None]. *)

Section Retry.
Context {St A : Type}.
Variables (retries : nat) (delay : Z).
Variable pause : Z -> St -> St.
Variable func : St -> St * (Exn + A).

Fixpoint retry_loop (attempts : list nat) (s : St) : St * (Exn + option A) :=
  match attempts with
  | [] => (s, inr None)
  | attempt :: rest =>
      match func s with
      | (s', inr v) => (s', inr (Some v))
      | (s', inl e) =>
          if (Z.of_nat attempt <? Z.of_nat retries - 1)%Z
          then retry_loop rest (pause delay s')
          else (s', inl e)
      end
  end.

Definition retry_request (s : St) : St * (Exn + option A) :=
  retry_loop (seq 0 retries) s.

(** One failed attempt followed by the delay: the state in which the
    next attempt starts. *)
Definition failed_round (s : St) : St := pause delay (func s).1.
End Retry.

(** ** One transfer ([download_with_retry] of [latest.py]) *)

(** [r.raise_for_status()]: an exception for 4xx and 5xx. *)
Definition raise_for_status (r : Response) : option Exn :=
  if (400 <=? status_code r)%Z && (status_code r <? 600)%Z
  then Some (HTTPError (status_code r))
  else None.

(** The body of the [for chunk in r.iter_content(...)] loop. *)
Definition write_chunk (filepath : string) (st : FileRecord * World)
    (chunk : list byte) : FileRecord * World :=
  match chunk with
  | [] => st
  | _ :: _ =>
      (set_downloaded_bytes
         (downloaded_bytes st.1 + Z.of_nat (length chunk))%Z st.1,
       write_file filepath chunk st.2)
  end.

(** The undecorated function: one attempt. *)
Definition download_body (net : Net) (headers : option Z) (mode : Mode)
    (filepath : string) (st : FileRecord * World)
    : (FileRecord * World) * (Exn + unit) :=
  let req := mkRequest GET (url st.1) headers in
  let w1 := send req st.2 in
  match get_reply net (length (requests st.2)) req with
  | GetRaises e => ((st.1, w1), inl e)
  | GetReturns r =>
      match raise_for_status r with
      | Some e => ((st.1, w1), inl e)
      | None =>
          (foldl (write_chunk filepath)
                 (st.1, open_file filepath mode w1) (chunks r),
           match stream_error r with
           | Some e => inl e
           | None => inr tt
           end)
      end
  end.

Definition pause_world (d : Z) (st : FileRecord * World) : FileRecord * World :=
  (st.1, sleep d st.2).

(** The decorated function: what a call of [download_with_retry] runs. *)
Definition download_with_retry (net : Net) (headers : option Z) (mode : Mode)
    (filepath : string) (st : FileRecord * World)
    : (FileRecord * World) * (Exn + option unit) :=
  retry_request max_retries retry_delay pause_world
    (download_body net headers mode filepath) st.

(** ** One catalog entry ([download_file] of [latest.py]) *)

Inductive StartText := Resuming | Downloading.

(** The three result messages, with the values their f-strings print. *)
Inductive Message :=
  | MsgSkipping (idx total : nat) (name : string)
  | MsgDone (idx total : nat) (start_text : StartText) (cat name : string)
  | MsgFailed (idx total : nat) (start_text : StartText) (cat name : string)
      (e : Exn).

Global Instance StartText_eq_dec : EqDecision StartText.
Proof. solve_decision. Defined.

Global Instance Message_eq_dec : EqDecision Message.
Proof. solve_decision. Defined.

(** Step 2 of [download_file]: the size to resume from and the entry with
    its counter synchronised upward to the file on disk. *)
Definition reconcile (filepath : string) (item : FileRecord) (w : World)
    : Z * FileRecord :=
  let existing_size := downloaded_bytes item in
  if path_exists filepath w then
    let disk_size := getsize filepath w in
    if (disk_size >? existing_size)%Z
    then (disk_size, set_downloaded_bytes disk_size item)
    else (existing_size, item)
  else (existing_size, item).

Definition range_header (existing_size : Z) : option Z :=
  if (existing_size >? 0)%Z then Some existing_size else None.

Definition open_mode (existing_size : Z) : Mode :=
  if (existing_size >? 0)%Z then ab else wb.

Definition start_text_of (existing_size : Z) : StartText :=
  if (existing_size >? 0)%Z then Resuming else Downloading.

Definition download_file (net : Net) (item : FileRecord) (idx total : nat)
    (download_dest : string) (w : World)
    : FileRecord * World * (option Message * bool) :=
  let category_path := path_join download_dest (category item) in
  let w := makedirs category_path w in
  let filepath := path_join category_path (filename item) in
  if decide (status item = Complete) then (item, w, (None, false)) else
  let total_file_size := total_size item in
  let '(existing_size, item) := reconcile filepath item w in
  if (total_file_size >? 0)%Z && (existing_size >=? total_file_size)%Z then
    (set_downloaded_bytes total_file_size (set_status Complete item), w,
     (Some (MsgSkipping idx total (filename item)), true))
  else
    let headers := range_header existing_size in
    let mode_write := open_mode existing_size in
    let start_text := start_text_of existing_size in
    match download_with_retry net headers mode_write filepath (item, w) with
    | ((item, w), inr _) =>
        let item := set_status Complete item in
        let item :=
          if (total_size item =? 0)%Z
          then set_total_size (downloaded_bytes item) item
          else item in
        (item, w,
         (Some (MsgDone idx total start_text (category item) (filename item)),
          true))
    | ((item, w), inl e) =>
        let item := set_status Failed item in
        let w := set_journal (journal w ++ [(url item, e)]) w in
        (item, w,
         (Some (MsgFailed idx total start_text (category item) (filename item) e),
          true))
    end.

(** ** The transfer of the previous revision ([working.py])

    It receives the url instead of the entry, keeps no byte counter and
    does not look at the status line.  The content-length header it reads
    is never used. *)

Module Working.

Definition write_chunk (filepath : string) (w : World) (chunk : list byte)
    : World :=
  match chunk with
  | [] => w
  | _ :: _ => write_file filepath chunk w
  end.

Definition download_body (net : Net) (target : string) (headers : option Z)
    (mode : Mode) (filepath : string) (w : World) : World * (Exn + unit) :=
  let req := mkRequest GET target headers in
  let w1 := send req w in
  match get_reply net (length (requests w)) req with
  | GetRaises e => (w1, inl e)
  | GetReturns r =>
      (foldl (write_chunk filepath) (open_file filepath mode w1) (chunks r),
       match stream_error r with
       | Some e => inl e
       | None => inr tt
       end)
  end.

Definition download_with_retry (net : Net) (target : string)
    (headers : option Z) (mode : Mode) (filepath : string) (w : World)
    : World * (Exn + option unit) :=
  retry_request max_retries retry_delay sleep
    (download_body net target headers mode filepath) w.

End Working.

(** ** The run over a catalog ([main] of [latest.py], once [file_list] is
    loaded or fetched) *)

(** The filter that selects [files_to_check]. *)
Definition needs_size_check (item : FileRecord) : bool :=
  bool_decide (status item ≠ Complete) && (total_size item =? 0)%Z.

(** The HEAD probe of one selected entry and the update of that entry. *)
Definition head_probe (net : Net) (item : FileRecord) (w : World)
    : FileRecord * World :=
  let req := mkRequest HEAD (url item) None in
  match head_reply net (length (requests w)) req with
  | HeadRaises _ => (set_status Failed item, send req w)
  | HeadReturns content_length =>
      (set_total_size (default 0%Z content_length) item, send req w)
  end.

(** The probes update the selected entries of [file_list] in place; the
    probes are issued here in catalog order. *)
Fixpoint check_sizes (net : Net) (file_list : list FileRecord) (w : World)
    : list FileRecord * World :=
  match file_list with
  | [] => ([], w)
  | item :: rest =>
      let r1 := if needs_size_check item then head_probe net item w
                else (item, w) in
      let r2 := check_sizes net rest r1.2 in
      (r1.1 :: r2.1, r2.2)
  end.

Definition size_check (net : Net) (file_list : list FileRecord) (w : World)
    : list FileRecord * World :=
  if existsb needs_size_check file_list then
    let r := check_sizes net file_list w in
    (r.1, save_cache r.1 r.2)
  else (file_list, w).

(** The pool.  Every entry is submitted; at most [max_threads] workers run
    at a time; the main thread takes results in completion order, saves the
    whole catalog after each modified one and once more at the end.  A
    schedule is a sequence of events; the effect of a worker on its entry
    and on the world is applied when it finishes. *)

Inductive Phase :=
  | Queued
  | Running
  | Finished (result : option Message * bool)
  | Collected.

Global Instance Phase_eq_dec : EqDecision Phase.
Proof. solve_decision. Defined.

Inductive Event :=
  | Start (i : nat)      (* a free worker takes entry i *)
  | Finish (i : nat)     (* download_file of entry i returns *)
  | Collect (i : nat)    (* as_completed yields the future of entry i *)
  | FinalSave.           (* the save after the with block *)

Record Sched := mkSched {
  catalog : list FileRecord;
  world : World;
  phases : list Phase;
  printed : list Message;
  finalized : bool;
}.

Definition running (ps : list Phase) : nat :=
  length (filter (fun p => p = Running) ps).

Definition all_collected (ps : list Phase) : bool :=
  forallb (fun p => bool_decide (p = Collected)) ps.

Definition sched_step (net : Net) (download_dest : string) (ev : Event)
    (s : Sched) : option Sched :=
  match ev with
  | Start i =>
      match phases s !! i with
      | Some Queued =>
          if decide (running (phases s) < max_threads) then
            Some (mkSched (catalog s) (world s) (<[i := Running]> (phases s))
                    (printed s) (finalized s))
          else None
      | _ => None
      end
  | Finish i =>
      match phases s !! i, catalog s !! i with
      | Some Running, Some item =>
          let r := download_file net item (S i) (length (catalog s))
                     download_dest (world s) in
          Some (mkSched (<[i := r.1.1]> (catalog s)) r.1.2
                  (<[i := Finished r.2]> (phases s)) (printed s) (finalized s))
      | _, _ => None
      end
  | Collect i =>
      match phases s !! i with
      | Some (Finished (result_msg, modified)) =>
          Some (mkSched (catalog s)
                  (if modified then save_cache (catalog s) (world s)
                   else world s)
                  (<[i := Collected]> (phases s))
                  (printed s ++ option_list result_msg) (finalized s))
      | _ => None
      end
  | FinalSave =>
      if finalized s then None
      else if all_collected (phases s) then
        Some (mkSched (catalog s) (save_cache (catalog s) (world s))
                (phases s) (printed s) true)
      else None
  end.

Fixpoint run (net : Net) (download_dest : string) (schedule : list Event)
    (s : Sched) : option Sched :=
  match schedule with
  | [] => Some s
  | ev :: rest =>
      match sched_step net download_dest ev s with
      | Some s' => run net download_dest rest s'
      | None => None
      end
  end.

Definition submit_all (file_list : list FileRecord) (w : World) : Sched :=
  mkSched file_list w (replicate (length file_list) Queued) [] false.

Definition main (net : Net) (download_dest : string)
    (file_list : list FileRecord) (w : World) (schedule : list Event)
    : option Sched :=
  let r := size_check net file_list w in
  run net download_dest schedule (submit_all r.1 r.2).

(** ** One catalog entry in the previous revision ([download_file] of
    [working.py])

    The entries of [working.py] carry a category, a file name and a url;
    the other fields of [FileRecord] are not read.  The journal of this
    revision holds one url per line and is kept next to the world.  There
    is no cache of progress: the file on disk is all the function looks
    at, and the size is probed with a HEAD request unless [skip_head]. *)

Module WorkingFile.

Definition head_size (net : Net) (item : FileRecord) (skip_head : bool)
    (w : World) : Z * World :=
  if skip_head then (0%Z, w)
  else
    let req := mkRequest HEAD (url item) None in
    match head_reply net (length (requests w)) req with
    | HeadRaises _ => (0%Z, send req w)
    | HeadReturns content_length =>
        (default 0%Z content_length, send req w)
    end.

Definition download_file (net : Net) (item : FileRecord) (idx total : nat)
    (skip_head : bool) (download_dest : string) (st : World * list string)
    : (World * list string) * option Message :=
  let category_path := path_join download_dest (category item) in
  let w := makedirs category_path st.1 in
  let filepath := path_join category_path (filename item) in
  if path_exists filepath w && (getsize filepath w >? 0)%Z
  then ((w, st.2), None)
  else
    let existing_size :=
      if path_exists filepath w then getsize filepath w else 0%Z in
    let probe := head_size net item skip_head w in
    let total_file_size := probe.1 in
    if negb (total_file_size =? 0)%Z && (existing_size >=? total_file_size)%Z
    then ((probe.2, st.2), None)
    else
      let headers := range_header existing_size in
      let mode_write := open_mode existing_size in
      let start_text := start_text_of existing_size in
      let out := Working.download_with_retry net (url item) headers
                   mode_write filepath probe.2 in
      match out.2 with
      | inr _ =>
          ((out.1, st.2),
           Some (MsgDone idx total start_text (category item)
                   (filename item)))
      | inl e =>
          ((out.1, st.2 ++ [url item]),
           Some (MsgFailed idx total start_text (category item)
                   (filename item) e))
      end.

End WorkingFile.

(** ** Discovery ([fetch_audio_list] of [latest.py])

    The two [re.findall] scans and [urljoin] are library calls; they are
    parameters here: [find_categories html] is the sorted, duplicate-free
    list of category links of the main page, [find_audio html] the
    duplicate-free list of audio links of a category page.  The pages
    themselves come from an oracle, like the replies of the file server:
    a page request raises or returns the text of the page. *)

(** [s.replace(old, new)] for a non-empty [old]: occurrences are found from
    left to right and do not overlap.  [skip] counts the characters of an
    occurrence that are still to be passed over. *)
Fixpoint replace_from (old new : string) (skip : nat) (s : string) : string :=
  match s with
  | EmptyString => EmptyString
  | String c rest =>
      match skip with
      | S k => replace_from old new k rest
      | 0 =>
          if String.prefix old s
          then new +:+ replace_from old new (String.length old - 1) rest
          else String c (replace_from old new 0 rest)
      end
  end.

Definition str_replace (old new s : string) : string :=
  replace_from old new 0 s.

(** [s.split(sep)] for a separator of one character: one more piece than
    there are separators, empty pieces included. *)
Fixpoint str_split (sep : ascii) (s : string) : list string :=
  match s with
  | EmptyString => [EmptyString]
  | String c rest =>
      if Ascii.eqb c sep then EmptyString :: str_split sep rest
      else
        match str_split sep rest with
        | piece :: pieces => String c piece :: pieces
        | [] => [String c EmptyString]
        end
  end.

(** Whether a character occurs in a string. *)
Fixpoint has_char (c : ascii) (s : string) : bool :=
  match s with
  | EmptyString => false
  | String d rest => Ascii.eqb d c || has_char c rest
  end.

Definition base_url : string := "https://www.dhammadownload.com/".
Definition main_page : string :=
  "https://www.dhammadownload.com/AudioInMyanmar.htm".

(** [sayadaw_href.replace('.htm', '').replace('/', '_')]. *)
Definition category_name_of (sayadaw_href : string) : string :=
  str_replace "/" "_" (str_replace ".htm" "" sayadaw_href).

(** [audio_href.split('/')[-1]]. *)
Definition filename_of_href (audio_href : string) : string :=
  List.last (str_split "/"%char audio_href) EmptyString.

Section Discovery.
Variable urljoin : string -> string -> string.
Variable find_categories : string -> list string.
Variable find_audio : string -> list string.
Variable page_reply : nat -> string -> Exn + string.

(** [requests.get(page, timeout=10)] followed by [.text]. *)
Definition get_page (page : string) (w : World) : (Exn + string) * World :=
  (page_reply (length (requests w)) page, send (mkRequest GET page None) w).

(** The dict appended for one audio link. *)
Definition new_record (category_name audio_href : string) : FileRecord :=
  mkRecord category_name (filename_of_href audio_href)
    (urljoin base_url audio_href) 0 0 Pending.

(** The body of the loop over the category links, with its own
    [try]/[except]: a category whose page cannot be fetched adds nothing. *)
Definition scan_category (acc : list FileRecord * World)
    (sayadaw_href : string) : list FileRecord * World :=
  let category_url := urljoin base_url sayadaw_href in
  let category_name := category_name_of sayadaw_href in
  let page := get_page category_url acc.2 in
  match page.1 with
  | inl _ => (acc.1, page.2)
  | inr cat_html =>
      (acc.1 ++ map (new_record category_name) (find_audio cat_html), page.2)
  end.

Definition fetch_audio_list (w : World) : list FileRecord * World :=
  let page := get_page main_page w in
  match page.1 with
  | inl _ => ([], page.2)
  | inr html_content =>
      let out := foldl scan_category ([], page.2)
                   (find_categories html_content) in
      (out.1, save_cache out.1 out.2)
  end.

(** The records one category contributes, given the number of requests
    sent before its page is asked for. *)
Definition category_records (sent : nat) (sayadaw_href : string)
    : list FileRecord :=
  match page_reply sent (urljoin base_url sayadaw_href) with
  | inl _ => []
  | inr cat_html =>
      map (new_record (category_name_of sayadaw_href)) (find_audio cat_html)
  end.
End Discovery.

(** ** Notions used by the statements *)

(** The destination of an entry. *)
Definition category_path_of (download_dest : string) (item : FileRecord)
    : string :=
  path_join download_dest (category item).

Definition filepath_of (download_dest : string) (item : FileRecord) : string :=
  path_join (category_path_of download_dest item) (filename item).

(** The exception an attempt ends with, read off the reply. *)
Definition attempt_error (o : GetOutcome) : option Exn :=
  match o with
  | GetRaises e => Some e
  | GetReturns r =>
      match raise_for_status r with
      | Some e => Some e
      | None => stream_error r
      end
  end.

(** The number of bytes an attempt writes, read off the reply. *)
Definition attempt_bytes (o : GetOutcome) : list byte :=
  match o with
  | GetRaises _ => []
  | GetReturns r =>
      match raise_for_status r with
      | Some _ => []
      | None => concat (chunks r)
      end
  end.

(** The test of step 3, on the larger of the two sizes. *)
Definition short_circuits (download_dest : string) (item : FileRecord)
    (w : World) : bool :=
  (total_size item >? 0)%Z &&
  (Z.max (downloaded_bytes item) (getsize (filepath_of download_dest item) w)
     >=? total_size item)%Z.

(** What [download_file] does with the outcome of the retried transfer. *)
Definition settle (idx total : nat) (existing_size : Z)
    (out : (FileRecord * World) * (Exn + option unit))
    : FileRecord * World * (option Message * bool) :=
  match out.2 with
  | inr _ =>
      (let done := set_status Complete out.1.1 in
       if (total_size done =? 0)%Z
       then set_total_size (downloaded_bytes done) done
       else done,
       out.1.2,
       (Some (MsgDone idx total (start_text_of existing_size)
                (category out.1.1) (filename out.1.1)), true))
  | inl e =>
      (set_status Failed out.1.1,
       set_journal (journal out.1.2 ++ [(url out.1.1, e)]) out.1.2,
       (Some (MsgFailed idx total (start_text_of existing_size)
                (category out.1.1) (filename out.1.1) e), true))
  end.

(** Every reply makes the attempt fail: [requests.get] raises, the status
    line is 4xx or 5xx, or the body breaks off with an exception. *)
Definition all_attempts_fail (net : Net) : Prop :=
  forall n req, is_Some (attempt_error (get_reply net n req)).

(** Once a run is finalized nothing is left to do: every future has been
    collected and the cache file holds the catalog as it is in memory. *)
Definition final_consistent (s : Sched) : Prop :=
  finalized s = true ->
  all_collected (phases s) = true ∧ cache (world s) = Some (catalog s).

(** The entry of a future that has finished is never written again. *)
Definition settled (s : Sched) (j : nat) : Prop :=
  match phases s !! j with
  | Some (Finished _) | Some Collected => True
  | _ => False
  end.

(** What a run over a complete catalog keeps. *)
Definition untouched (file_list : list FileRecord) (w : World) (s : Sched)
    : Prop :=
  catalog s = file_list ∧
  requests (world s) = requests w ∧
  files (world s) = files w ∧
  journal (world s) = journal w ∧
  sleeps (world s) = sleeps w ∧
  cache (world s) = (if finalized s then Some file_list else cache w) ∧
  (forall i res, phases s !! i = Some (Finished res) -> res = (None, false)).

(** The schedule that handles the entries one after the other. *)
Definition sequential_schedule (first count : nat) : list Event :=
  flat_map (fun i => [Start i; Finish i; Collect i]) (seq first count)
  ++ [FinalSave].

(** ** Concrete runs

    One entry, [https://x/a.mp3], ten bytes long on the server, stored
    under [dl/talks/a.mp3]. *)

Module Scenario.

Definition target : string := "https://x/a.mp3".
Definition dest : string := "dl".
Definition song_path : string := "dl/talks/a.mp3".
Definition song : list byte := replicate 10 "A"%byte.
Definition error_page : list byte := replicate 3 "E"%byte.

Definition entry (done total : Z) (st : Status) : FileRecord :=
  mkRecord "talks" "a.mp3" target done total st.

Definition no_head : nat -> Request -> HeadOutcome :=
  fun _ _ => HeadReturns None.

Definition empty_world : World := mkWorld ∅ ∅ [] None [] [].

(** A previous run left the first four bytes on disk. *)
Definition four_bytes_on_disk : World :=
  mkWorld {[song_path := take 4 song]} {["dl/talks"]} [] None [] [].

(** A server that ignores Range: every GET gets 200 and the whole file. *)
Definition net_ignores_range : Net :=
  mkNet (fun _ _ => GetReturns (mkResponse 200 [song] None)) no_head.

(** A server that honours Range with 206 and the rest of the file. *)
Definition net_honours_range : Net :=
  mkNet (fun _ req =>
           match req_range req with
           | Some k => GetReturns (mkResponse 206 [drop (Z.to_nat k) song] None)
           | None => GetReturns (mkResponse 200 [song] None)
           end) no_head.

(** The connection breaks after four bytes of the first reply; every
    later request is served in full. *)
Definition net_breaks_once : Net :=
  mkNet (fun n _ =>
           match n with
           | 0 => GetReturns (mkResponse 200 [take 4 song]
                                (Some (StreamError "connection reset")))
           | _ => GetReturns (mkResponse 200 [song] None)
           end) no_head.

(** A server that is down. *)
Definition net_down : Net :=
  mkNet (fun _ _ => GetRaises (ConnectionError "timed out")) no_head.

(** A server that answers 404 with an error page. *)
Definition net_not_found : Net :=
  mkNet (fun _ _ => GetReturns (mkResponse 404 [error_page] None)) no_head.

End Scenario.

(** * Properties *)

(** ** Records and worlds: bookkeeping *)

Lemma set_downloaded_bytes_id (item : FileRecord) :
  set_downloaded_bytes (downloaded_bytes item) item = item.
Proof. by destruct item. Qed.

Lemma set_files_id (w : World) : set_files (files w) w = w.
Proof. by destruct w. Qed.

(** What the chunk loop does to the entry: the counter grows by the number
    of bytes of the body, nothing else changes. *)
Lemma write_loop_item (filepath : string) (cs : list (list byte))
    (item : FileRecord) (w : World) :
  (foldl (write_chunk filepath) (item, w) cs).1 =
  set_downloaded_bytes
    (downloaded_bytes item + Z.of_nat (length (concat cs)))%Z item.
Proof.
  revert item w. induction cs as [|c cs IH]; intros item w; simpl.
  - rewrite Z.add_0_r. by rewrite set_downloaded_bytes_id.
  - destruct c as [|b c]; simpl; [apply IH|].
    rewrite IH. destruct item; unfold set_downloaded_bytes; simpl.
    f_equal. rewrite length_app. simpl. lia.
Qed.

(** What the chunk loop does to the world: the body is appended to the
    file; a body without bytes writes nothing. *)
Lemma write_loop_files (filepath : string) (cs : list (list byte))
    (item : FileRecord) (w : World) :
  (foldl (write_chunk filepath) (item, w) cs).2 =
  match concat cs with
  | [] => w
  | _ :: _ => write_file filepath (concat cs) w
  end.
Proof.
  revert item w. induction cs as [|c cs IH]; intros item w; simpl; [done|].
  destruct c as [|b c]; simpl; [apply IH|].
  rewrite IH. destruct (concat cs) as [|b' body] eqn:E.
  - by rewrite app_nil_r.
  - unfold write_file, set_files; simpl.
    rewrite lookup_insert_eq, insert_insert_eq. simpl.
    by rewrite <- app_assoc.
Qed.

Lemma write_file_frame (filepath : string) (body : list byte) (w : World) :
  dirs (write_file filepath body w) = dirs w ∧
  journal (write_file filepath body w) = journal w ∧
  cache (write_file filepath body w) = cache w ∧
  requests (write_file filepath body w) = requests w ∧
  sleeps (write_file filepath body w) = sleeps w.
Proof. done. Qed.

Lemma write_loop_frame (filepath : string) (cs : list (list byte))
    (item : FileRecord) (w : World) :
  let w' := (foldl (write_chunk filepath) (item, w) cs).2 in
  dirs w' = dirs w ∧ journal w' = journal w ∧ cache w' = cache w ∧
  requests w' = requests w ∧ sleeps w' = sleeps w.
Proof.
  simpl. rewrite write_loop_files. by destruct (concat cs).
Qed.

(** ** Non-success status lines *)

(** X1.  In [latest.py] an attempt that receives a 4xx or 5xx status line raises
    the HTTP error before the destination is opened: no file changes (it is
    not even truncated) and the byte counter stays where it was. *)
Lemma latest_error_status_is_hard_failure (net : Net) (headers : option Z)
    (mode : Mode) (filepath : string) (item : FileRecord) (w : World)
    (r : Response) :
  get_reply net (length (requests w)) (mkRequest GET (url item) headers)
    = GetReturns r ->
  (400 <= status_code r < 600)%Z ->
  let out := download_body net headers mode filepath (item, w) in
  out.2 = inl (HTTPError (status_code r)) ∧
  out.1.1 = item ∧
  files out.1.2 = files w.
Proof.
  intros Hreply Hcode. unfold download_body; simpl. rewrite Hreply.
  unfold raise_for_status.
  replace (400 <=? status_code r)%Z with true by lia.
  replace (status_code r <? 600)%Z with true by lia.
  done.
Qed.

(** ** Reconciling the stored counter with the file on disk *)

Lemma getsize_nonneg (path : string) (w : World) : (0 <= getsize path w)%Z.
Proof. unfold getsize. destruct (files w !! path); lia. Qed.

Lemma getsize_makedirs (path dir : string) (w : World) :
  getsize path (makedirs dir w) = getsize path w.
Proof. done. Qed.

Lemma getsize_missing (path : string) (w : World) :
  path_exists path w = false -> getsize path w = 0%Z.
Proof.
  unfold path_exists, getsize. intros H.
  apply orb_false_iff in H as [H _]. apply bool_decide_eq_false in H.
  destruct (files w !! path) eqn:E; [|done].
  exfalso. apply H. by eexists.
Qed.

(** [reconcile] returns the larger of the two sizes and stores it in the
    entry.  The only way to fall below the maximum is a negative stored
    counter next to a missing file, and then the result is that negative
    counter. *)
Lemma reconcile_spec (filepath : string) (item : FileRecord) (w : World) :
  let r := reconcile filepath item w in
  r.2 = set_downloaded_bytes r.1 item ∧
  (r.1 = Z.max (downloaded_bytes item) (getsize filepath w) ∨
   (r.1 = downloaded_bytes item ∧ getsize filepath w = 0 ∧
    downloaded_bytes item < 0)%Z).
Proof.
  unfold reconcile. destruct (path_exists filepath w) eqn:Hex.
  - destruct (getsize filepath w >? downloaded_bytes item)%Z eqn:Hgt; simpl.
    + split; [done|]. left. lia.
    + split; [by rewrite set_downloaded_bytes_id|]. left. lia.
  - simpl. split; [by rewrite set_downloaded_bytes_id|].
    pose proof (getsize_missing _ _ Hex) as H0. rewrite H0.
    destruct (Z_lt_ge_dec (downloaded_bytes item) 0); [right|left]; lia.
Qed.

Lemma reconcile_max (filepath : string) (item : FileRecord) (w : World) :
  (0 <= downloaded_bytes item)%Z ->
  reconcile filepath item w =
  (Z.max (downloaded_bytes item) (getsize filepath w),
   set_downloaded_bytes
     (Z.max (downloaded_bytes item) (getsize filepath w)) item).
Proof.
  intros Hpos. destruct (reconcile_spec filepath item w) as [H2 [H1|H1]].
  - rewrite <- H1, <- H2. by destruct (reconcile filepath item w).
  - lia.
Qed.

(** The test of step 3 in terms of the maximum, whatever the sign of the
    stored counter. *)
Lemma short_circuit_test (filepath : string) (item : FileRecord) (w : World) :
  (0 < total_size item)%Z ->
  ((reconcile filepath item w).1 >=? total_size item)%Z =
  (Z.max (downloaded_bytes item) (getsize filepath w) >=? total_size item)%Z.
Proof.
  intros HT. destruct (reconcile_spec filepath item w) as [_ [H|H]].
  - by rewrite H.
  - destruct H as (H1 & H2 & H3). rewrite H1, H2. lia.
Qed.

(** ** Entries that are already complete *)

Lemma download_file_complete (net : Net) (item : FileRecord)
    (idx total : nat) (download_dest : string) (w : World) :
  status item = Complete ->
  download_file net item idx total download_dest w =
  (item, makedirs (category_path_of download_dest item) w, (None, false)).
Proof.
  intros Hc. unfold download_file.
  by destruct (decide (status item = Complete)).
Qed.

(** C10: for an entry whose status is already complete, [download_file]
    returns [(None, False)] and leaves every field of the entry as it was,
    yet the category directory has been created: [os.makedirs] runs before
    the status is looked at.  Nothing else in the world changes. *)
Theorem complete_entry_kept_directory_created (net : Net) (item : FileRecord)
    (idx total : nat) (download_dest : string) (w : World) :
  status item = Complete ->
  let out := download_file net item idx total download_dest w in
  out.2 = (None, false) ∧
  out.1.1 = item ∧
  out.1.2 = makedirs (category_path_of download_dest item) w ∧
  category_path_of download_dest item ∈ dirs out.1.2 ∧
  files out.1.2 = files w ∧
  requests out.1.2 = requests w ∧
  journal out.1.2 = journal w ∧
  cache out.1.2 = cache w ∧
  sleeps out.1.2 = sleeps w.
Proof.
  intros Hc. simpl. rewrite download_file_complete by done. simpl.
  repeat split. unfold category_path_of. set_solver.
Qed.

(** ** The short circuit of step 3 *)

Lemma download_file_short_circuit (net : Net) (item : FileRecord)
    (idx total : nat) (download_dest : string) (w : World) :
  status item ≠ Complete ->
  (0 < total_size item)%Z ->
  (total_size item <=
     Z.max (downloaded_bytes item)
           (getsize (filepath_of download_dest item) w))%Z ->
  download_file net item idx total download_dest w =
  (set_downloaded_bytes (total_size item) (set_status Complete item),
   makedirs (category_path_of download_dest item) w,
   (Some (MsgSkipping idx total (filename item)), true)).
Proof.
  intros Hn HT Hmax. unfold download_file.
  destruct (decide (status item = Complete)) as [Hc|_]; [done|].
  pose proof (short_circuit_test
    (path_join (path_join download_dest (category item)) (filename item))
    item (makedirs (path_join download_dest (category item)) w) HT) as Htest.
  pose proof (reconcile_spec
    (path_join (path_join download_dest (category item)) (filename item))
    item (makedirs (path_join download_dest (category item)) w)) as [Hitem _].
  destruct (reconcile _ item _) as [existing_size item1] eqn:Hrec.
  simpl in Htest, Hitem. rewrite getsize_makedirs in Htest.
  unfold filepath_of, category_path_of in Hmax.
  replace (total_size item >? 0)%Z with true by lia.
  rewrite Htest.
  replace (_ >=? _)%Z with true by lia.
  simpl. by subst item1.
Qed.

(** C9: an entry that is not yet marked complete, has a known positive
    total size and whose reconciled size (the larger of the stored counter
    and the size on disk) reaches that total is marked complete without
    any request, and its counter is set to exactly the total size, also
    when the file on disk is longer. *)
Theorem short_circuit_sets_counter_to_total (net : Net) (item : FileRecord)
    (idx total : nat) (download_dest : string) (w : World) :
  status item ≠ Complete ->
  (0 < total_size item)%Z ->
  (total_size item <=
     Z.max (downloaded_bytes item)
           (getsize (filepath_of download_dest item) w))%Z ->
  let out := download_file net item idx total download_dest w in
  out.1.1 = set_downloaded_bytes (total_size item) (set_status Complete item) ∧
  status out.1.1 = Complete ∧
  downloaded_bytes out.1.1 = total_size item ∧
  (downloaded_bytes out.1.1 <= total_size out.1.1)%Z ∧
  requests out.1.2 = requests w ∧
  files out.1.2 = files w ∧
  journal out.1.2 = journal w ∧
  out.2 = (Some (MsgSkipping idx total (filename item)), true).
Proof.
  intros Hn HT Hmax. simpl.
  rewrite download_file_short_circuit by done. simpl.
  by repeat split.
Qed.

(** ** The retry loop *)

Section RetryFacts.
Context {St A : Type}.
Variables (retries : nat) (delay : Z).
Variable pause : Z -> St -> St.
Variable func : St -> St * (Exn + A).

(** Whatever holds before the loop and is kept by an attempt and by the
    delay holds after the loop. *)
Lemma retry_loop_preserves (P : St -> Prop) (attempts : list nat) (s : St) :
  (forall s, P s -> P (func s).1) ->
  (forall s, P s -> P (pause delay s)) ->
  P s -> P (retry_loop retries delay pause func attempts s).1.
Proof.
  intros Hf Hp. revert s. induction attempts as [|a rest IH]; intros s Hs.
  - done.
  - simpl. pose proof (Hf s Hs) as Hs'.
    destruct (func s) as [s' [e|v]]; simpl in *; [|done].
    destruct (_ <? _)%Z; [|done]. apply IH. by apply Hp.
Qed.

(** When every attempt fails, the last [n + 1] iterations of the loop
    are [n] failed rounds followed by one more attempt, whose state and
    exception are what the wrapper hands to its caller. *)
Lemma retry_loop_all_fail (n a : nat) (s : St) :
  (forall s, exists e, (func s).2 = inl e) ->
  a + S n = retries ->
  retry_loop retries delay pause func (seq a (S n)) s =
  ((func (Nat.iter n (failed_round delay pause func) s)).1,
   match (func (Nat.iter n (failed_round delay pause func) s)).2 with
   | inl e => inl e
   | inr v => inr (Some v)
   end).
Proof.
  intros Hfail. revert a s. induction n as [|n IH]; intros a s Ha.
  - simpl. destruct (Hfail s) as [e He].
    destruct (func s) as [s' r]; simpl in *; subst r.
    replace (_ <? _)%Z with false by lia. done.
  - change (seq a (S (S n))) with (a :: seq (S a) (S n)).
    cbn [retry_loop]. destruct (Hfail s) as [e He].
    destruct (func s) as [s' r] eqn:Hs; simpl in He; subst r.
    replace (_ <? _)%Z with true by lia.
    rewrite (IH (S a)) by lia.
    rewrite !Nat.iter_succ_r.
    replace (failed_round delay pause func s) with (pause delay s');
      [done|].
    unfold failed_round. by rewrite Hs.
Qed.

(** With no attempt allowed the wrapper returns [None] and never calls
    the operation. *)
Lemma retry_loop_no_attempt (s : St) :
  retry_loop retries delay pause func [] s = (s, inr None).
Proof. done. Qed.
End RetryFacts.

(** ** One attempt *)

Lemma download_body_result (net : Net) (headers : option Z) (mode : Mode)
    (filepath : string) (item : FileRecord) (w : World) :
  (download_body net headers mode filepath (item, w)).2 =
  match attempt_error
          (get_reply net (length (requests w))
             (mkRequest GET (url item) headers)) with
  | Some e => inl e
  | None => inr tt
  end.
Proof.
  unfold download_body, attempt_error; simpl.
  destruct (get_reply _ _ _) as [e|r]; [done|].
  by destruct (raise_for_status r).
Qed.

Lemma download_body_item (net : Net) (headers : option Z) (mode : Mode)
    (filepath : string) (item : FileRecord) (w : World) :
  (download_body net headers mode filepath (item, w)).1.1 =
  set_downloaded_bytes
    (downloaded_bytes item +
     Z.of_nat (length (attempt_bytes
       (get_reply net (length (requests w))
          (mkRequest GET (url item) headers)))))%Z item.
Proof.
  unfold download_body, attempt_bytes; simpl.
  destruct (get_reply _ _ _) as [e|r]; simpl.
  - by rewrite Z.add_0_r, set_downloaded_bytes_id.
  - destruct (raise_for_status r); simpl.
    + by rewrite Z.add_0_r, set_downloaded_bytes_id.
    + apply write_loop_item.
Qed.

Lemma download_body_frame (net : Net) (headers : option Z) (mode : Mode)
    (filepath : string) (item : FileRecord) (w : World) :
  let out := download_body net headers mode filepath (item, w) in
  requests out.1.2 = requests w ++ [mkRequest GET (url item) headers] ∧
  sleeps out.1.2 = sleeps w ∧
  journal out.1.2 = journal w ∧
  cache out.1.2 = cache w ∧
  dirs out.1.2 = dirs w.
Proof.
  unfold download_body; simpl.
  destruct (get_reply _ _ _) as [e|r]; [done|].
  destruct (raise_for_status r); [done|]. simpl.
  pose proof (write_loop_frame filepath (chunks r) item
    (open_file filepath mode (send (mkRequest GET (url item) headers) w)))
    as (Hd & Hj & Hc & Hr & Hs). simpl in *.
  rewrite Hd, Hj, Hc, Hr, Hs. by destruct mode.
Qed.

(** ** The transfer path of [download_file] *)

(** An entry that is neither complete nor short-circuited is handed to the
    retried transfer, with the header and the mode computed once from the
    reconciled size. *)
Lemma download_file_transfer (net : Net) (item : FileRecord)
    (idx total : nat) (download_dest : string) (w : World) :
  status item ≠ Complete ->
  short_circuits download_dest item w = false ->
  download_file net item idx total download_dest w =
  let w1 := makedirs (category_path_of download_dest item) w in
  let r := reconcile (filepath_of download_dest item) item w1 in
  settle idx total r.1
    (download_with_retry net (range_header r.1) (open_mode r.1)
       (filepath_of download_dest item) (r.2, w1)).
Proof.
  intros Hn Hsc. unfold download_file, settle.
  destruct (decide (status item = Complete)) as [Hc|_]; [done|].
  fold (category_path_of download_dest item).
  fold (filepath_of download_dest item).
  assert (((total_size item >? 0)%Z &&
           ((reconcile (filepath_of download_dest item) item
               (makedirs (category_path_of download_dest item) w)).1
              >=? total_size item)%Z) = false) as Htest.
  { unfold short_circuits in Hsc.
    destruct (total_size item >? 0)%Z eqn:HT; [|done]. simpl in *.
    rewrite short_circuit_test by lia. by rewrite getsize_makedirs. }
  destruct (reconcile _ item _) as [existing_size item1]. simpl in *.
  rewrite Htest.
  destruct (download_with_retry _ _ _ _ _) as [[item2 w2] [e|v]]; simpl;
    [done|].
  by destruct (total_size item2 =? 0)%Z.
Qed.

(** The state at the top of an attempt that follows [n] failed ones. *)
Lemma failed_rounds_state (net : Net) (headers : option Z) (mode : Mode)
    (filepath : string) (n : nat) (item : FileRecord) (w : World) :
  let s := Nat.iter n
             (failed_round retry_delay pause_world
                (download_body net headers mode filepath)) (item, w) in
  s.1 = set_downloaded_bytes (downloaded_bytes s.1) item ∧
  (downloaded_bytes item <= downloaded_bytes s.1)%Z ∧
  requests s.2 =
    requests w ++ replicate n (mkRequest GET (url item) headers) ∧
  sleeps s.2 = sleeps w ++ replicate n retry_delay ∧
  journal s.2 = journal w ∧
  cache s.2 = cache w.
Proof.
  induction n as [|n IH]; simpl.
  - rewrite set_downloaded_bytes_id, !app_nil_r. repeat split; try done; lia.
  - destruct (Nat.iter n _ (item, w)) as [item1 w1].
    simpl in IH. destruct IH as (Hi & Hle & Hr & Hs & Hj & Hc).
    unfold failed_round, pause_world; simpl.
    pose proof (download_body_item net headers mode filepath item1 w1) as Fi.
    pose proof (download_body_frame net headers mode filepath item1 w1)
      as (Fr & Fs & Fj & Fc & _).
    destruct (download_body net headers mode filepath (item1, w1))
      as [[item2 w2] res]. simpl in *.
    set (d := Z.of_nat _) in Fi.
    assert (0 <= d)%Z as Hd by (subst d; lia). clearbody d.
    assert (url item1 = url item) as Hu by (by rewrite Hi).
    rewrite Fr, Fs, Fj, Fc, Hr, Hs, Hu, !replicate_cons_app, !app_assoc.
    subst item2. repeat split; try done; [|simpl; lia].
    rewrite Hi. by destruct item.
Qed.

(** ** Exhausted retries *)

Lemma download_body_fails (net : Net) (headers : option Z) (mode : Mode)
    (filepath : string) :
  all_attempts_fail net ->
  forall s, exists e, (download_body net headers mode filepath s).2 = inl e.
Proof.
  intros Hfail [item w]. rewrite download_body_result.
  destruct (Hfail (length (requests w)) (mkRequest GET (url item) headers))
    as [e He].
  rewrite He. by exists e.
Qed.

(** C3: when every attempt of a transfer fails, the wrapper makes exactly
    [max_retries] attempts (one request each, all the same) and sleeps
    [retry_delay] exactly [max_retries - 1] times; the exception of the
    last attempt is the one that reaches [download_file], which marks the
    entry failed and appends exactly one line, with that exception, to the
    journal. *)
Theorem exhausted_retries_fail_and_journal_once (net : Net)
    (item : FileRecord) (idx total : nat) (download_dest : string)
    (w : World) :
  status item ≠ Complete ->
  short_circuits download_dest item w = false ->
  all_attempts_fail net ->
  let out := download_file net item idx total download_dest w in
  exists req e start_text,
    req_method req = GET ∧ req_url req = url item ∧
    requests out.1.2 = requests w ++ replicate max_retries req ∧
    sleeps out.1.2 = sleeps w ++ replicate (max_retries - 1) retry_delay ∧
    attempt_error
      (get_reply net (length (requests w) + (max_retries - 1)) req) = Some e ∧
    status out.1.1 = Failed ∧
    journal out.1.2 = journal w ++ [(url item, e)] ∧
    out.2 =
      (Some (MsgFailed idx total start_text (category item) (filename item) e),
       true).
Proof.
  intros Hn Hsc Hfail. simpl.
  rewrite download_file_transfer by done. simpl.
  set (w1 := makedirs (category_path_of download_dest item) w).
  set (fp := filepath_of download_dest item).
  pose proof (reconcile_spec fp item w1) as [Hrec _].
  destruct (reconcile fp item w1) as [k item1]. simpl in *.
  unfold download_with_retry, retry_request.
  change (seq 0 max_retries) with (seq 0 (S 2)).
  rewrite (retry_loop_all_fail max_retries retry_delay pause_world
             (download_body net (range_header k) (open_mode k) fp) 2 0)
    by (done || by apply download_body_fails).
  pose proof (failed_rounds_state net (range_header k) (open_mode k) fp 2
                item1 w1) as (Hi & _ & Hr & Hs & Hj & _).
  destruct (Nat.iter 2 _ (item1, w1)) as [item2 w2]. simpl in Hi, Hr, Hs, Hj.
  pose proof (download_body_result net (range_header k) (open_mode k) fp
                item2 w2) as Hres.
  pose proof (download_body_item net (range_header k) (open_mode k) fp
                item2 w2) as Hit.
  pose proof (download_body_frame net (range_header k) (open_mode k) fp
                item2 w2) as (Fr & Fs & Fj & _).
  destruct (download_body net (range_header k) (open_mode k) fp (item2, w2))
    as [[item3 w3] res]. simpl in *.
  assert (url item2 = url item) as Hu by (by rewrite Hi, Hrec).
  rewrite Hu, Hr in Hres.
  destruct (Hfail (length (requests w ++
      [mkRequest GET (url item1) (range_header k);
       mkRequest GET (url item1) (range_header k)]))
    (mkRequest GET (url item) (range_header k))) as [e He].
  rewrite He in Hres. subst res. unfold settle; simpl.
  exists (mkRequest GET (url item) (range_header k)), e, (start_text_of k).
  assert (url item1 = url item) as Hu1 by (by rewrite Hrec).
  rewrite Hu1 in *.
  rewrite Fr, Fs, Fj, Hr, Hs, Hj, Hu. simpl.
  rewrite length_app in He. simpl in He.
  rewrite <- app_assoc. simpl.
  repeat split; try done.
  all: rewrite Hit, Hi, Hrec; done.
Qed.

(** ** Every attempt of one call sends the same request *)

(** Whatever the replies, the retried transfer sends between one and
    [length attempts] requests, all equal to the request built from the
    header it was called with; it only ever adds to the byte counter. *)
Lemma retry_loop_requests (net : Net) (headers : option Z) (mode : Mode)
    (filepath : string) (attempts : list nat) (item : FileRecord) (w : World) :
  let out := retry_loop max_retries retry_delay pause_world
               (download_body net headers mode filepath) attempts (item, w) in
  exists n,
    n <= length attempts ∧ (attempts ≠ [] -> 1 <= n) ∧
    requests out.1.2 =
      requests w ++ replicate n (mkRequest GET (url item) headers) ∧
    out.1.1 = set_downloaded_bytes (downloaded_bytes out.1.1) item ∧
    (downloaded_bytes item <= downloaded_bytes out.1.1)%Z ∧
    journal out.1.2 = journal w ∧
    cache out.1.2 = cache w.
Proof.
  revert item w. induction attempts as [|a rest IH]; intros item w; simpl.
  - exists 0. rewrite app_nil_r, set_downloaded_bytes_id.
    repeat split; try done; lia.
  - pose proof (download_body_item net headers mode filepath item w) as Fi.
    pose proof (download_body_frame net headers mode filepath item w)
      as (Fr & _ & Fj & Fc & _).
    destruct (download_body net headers mode filepath (item, w))
      as [[item1 w1] res]. simpl in *.
    set (d := Z.of_nat _) in Fi.
    assert (0 <= d)%Z as Hd by (subst d; lia). clearbody d.
    assert (exists n, n <= S (length rest) ∧ (a :: rest ≠ [] -> 1 <= n) ∧
              requests w1 =
                requests w ++ replicate n (mkRequest GET (url item) headers) ∧
              item1 = set_downloaded_bytes (downloaded_bytes item1) item ∧
              (downloaded_bytes item <= downloaded_bytes item1)%Z ∧
              journal w1 = journal w ∧ cache w1 = cache w) as Hone.
    { exists 1. subst item1. simpl. repeat split; try done; lia. }
    destruct res as [e|v]; [|exact Hone].
    destruct (_ <? _)%Z; [|exact Hone]. clear Hone.
    change (pause_world retry_delay (item1, w1))
      with (item1, sleep retry_delay w1).
    destruct (IH item1 (sleep retry_delay w1))
      as (n & Hn & _ & Hr & Hi & Hle & Hj & Hc).
    change (requests (sleep retry_delay w1)) with (requests w1) in Hr.
    change (journal (sleep retry_delay w1)) with (journal w1) in Hj.
    change (cache (sleep retry_delay w1)) with (cache w1) in Hc.
    exists (S n). rewrite Hr, Hj, Hc, Fr, Fj, Fc.
    assert (url item1 = url item) as Hu by (by subst item1).
    rewrite Hu, <- app_assoc. simpl.
    repeat split; try done; try lia.
    + rewrite Hi. subst item1. by destruct item.
    + subst item1. simpl in *. lia.
Qed.

(** ** The resume offset *)

(** C5: for an entry that is not complete (and whose stored counter is not
    negative), the size the transfer resumes from is the larger of the
    stored counter and the size of the file on disk ([getsize] is 0 when
    there is no file); the stored counter is raised to that size before the
    transfer; and when a transfer takes place, its requests carry the
    header [Range: bytes=k-] for that size [k] when it is positive and no
    Range header when it is 0, with the file opened accordingly. *)
Theorem resume_offset_is_larger_size (net : Net) (item : FileRecord)
    (idx total : nat) (download_dest : string) (w : World) :
  status item ≠ Complete ->
  (0 <= downloaded_bytes item)%Z ->
  let fp := filepath_of download_dest item in
  let w1 := makedirs (category_path_of download_dest item) w in
  let k := Z.max (downloaded_bytes item) (getsize fp w) in
  (files w !! fp = None -> k = downloaded_bytes item) ∧
  reconcile fp item w1 = (k, set_downloaded_bytes k item) ∧
  (short_circuits download_dest item w = false ->
   let out := download_file net item idx total download_dest w in
   out = settle idx total k
           (download_with_retry net (range_header k) (open_mode k) fp
              (set_downloaded_bytes k item, w1)) ∧
   (k <= downloaded_bytes out.1.1)%Z ∧
   exists n, 1 <= n <= max_retries ∧
     requests out.1.2 =
       requests w ++
       replicate n
         (mkRequest GET (url item) (if (k >? 0)%Z then Some k else None))).
Proof.
  intros Hn Hpos fp w1 k.
  assert (reconcile fp item w1 = (k, set_downloaded_bytes k item)) as Hrec.
  { subst k. rewrite <- (getsize_makedirs fp
      (category_path_of download_dest item) w). by apply reconcile_max. }
  split; [|split; [done|]].
  - intros Hnone. subst k. unfold getsize. rewrite Hnone. lia.
  - intros Hsc. simpl. rewrite download_file_transfer by done. simpl.
    fold fp w1. rewrite Hrec. simpl. split; [done|].
    unfold download_with_retry, retry_request.
    pose proof (retry_loop_requests net (range_header k) (open_mode k) fp
      (seq 0 max_retries) (set_downloaded_bytes k item) w1)
      as (n & Hle & Hge & Hr & Hi & Hdb & _).
    destruct (retry_loop _ _ _ _ _ _) as [[item2 w2] res]. simpl in *.
    split.
    + unfold settle; simpl. destruct res; simpl; [done|].
      by destruct (total_size item2 =? 0)%Z.
    + exists n. split; [split; [by apply Hge | done]|].
      unfold settle; simpl. by destruct res.
Qed.

(** ** Attempts that succeed *)

Lemma download_body_success (net : Net) (headers : option Z) (mode : Mode)
    (filepath : string) (item : FileRecord) (w : World) (r : Response) :
  get_reply net (length (requests w)) (mkRequest GET (url item) headers)
    = GetReturns r ->
  raise_for_status r = None ->
  stream_error r = None ->
  download_body net headers mode filepath (item, w) =
  (foldl (write_chunk filepath)
     (item, open_file filepath mode
              (send (mkRequest GET (url item) headers) w)) (chunks r),
   inr tt).
Proof.
  intros Hreply Hst Herr. unfold download_body; simpl.
  by rewrite Hreply, Hst, Herr.
Qed.

(** A first attempt that succeeds is the whole call. *)
Lemma download_with_retry_first_success (net : Net) (headers : option Z)
    (mode : Mode) (filepath : string) (s : FileRecord * World) :
  (download_body net headers mode filepath s).2 = inr tt ->
  download_with_retry net headers mode filepath s =
  ((download_body net headers mode filepath s).1, inr (Some tt)).
Proof.
  intros Hok. unfold download_with_retry, retry_request.
  change (seq 0 max_retries) with (0 :: seq 1 2). cbn [retry_loop].
  destruct (download_body net headers mode filepath s) as [s' r].
  simpl in Hok. by subst r.
Qed.

(** ** A server that ignores the Range header *)

(** C1, as stated, fails: four bytes are on disk, the entry is resumed
    with [Range: bytes=4-], the server answers 200 with the whole ten
    bytes, and the body is appended.  The file ends with 14 bytes, not 10,
    and the entry is marked complete. *)
Lemma range_ignored_file_grows_past_total :
  let item := Scenario.entry 4 10 Pending in
  let out := download_file Scenario.net_ignores_range item 1 1 Scenario.dest
               Scenario.four_bytes_on_disk in
  requests out.1.2 = [mkRequest GET Scenario.target (Some 4%Z)] ∧
  get_reply Scenario.net_ignores_range 0
    (mkRequest GET Scenario.target (Some 4%Z))
    = GetReturns (mkResponse 200 [Scenario.song] None) ∧
  status out.1.1 = Complete ∧
  getsize Scenario.song_path out.1.2 = 14%Z ∧
  getsize Scenario.song_path out.1.2 ≠ total_size item ∧
  files out.1.2 !! Scenario.song_path
    = Some (take 4 Scenario.song ++ Scenario.song).
Proof. vm_compute. by repeat split. Qed.

(** C1, amended: when an entry is resumed from offset [k > 0] and the
    first reply to the ranged GET is a 200 with the full content, the
    engine appends that body to what is on disk, exactly as it would for a
    206: the file grows by the length of the body, the counter becomes
    [k] plus that length, and the entry is marked complete. *)
Theorem range_ignored_body_is_appended (net : Net) (item : FileRecord)
    (idx total : nat) (download_dest : string) (w : World)
    (body : list (list byte)) :
  status item ≠ Complete ->
  (0 <= downloaded_bytes item)%Z ->
  let fp := filepath_of download_dest item in
  let k := Z.max (downloaded_bytes item) (getsize fp w) in
  (0 < k)%Z ->
  short_circuits download_dest item w = false ->
  get_reply net (length (requests w)) (mkRequest GET (url item) (Some k))
    = GetReturns (mkResponse 200 body None) ->
  let out := download_file net item idx total download_dest w in
  requests out.1.2 = requests w ++ [mkRequest GET (url item) (Some k)] ∧
  files out.1.2 !! fp = Some (default [] (files w !! fp) ++ concat body) ∧
  getsize fp out.1.2 = (getsize fp w + Z.of_nat (length (concat body)))%Z ∧
  downloaded_bytes out.1.1 = (k + Z.of_nat (length (concat body)))%Z ∧
  status out.1.1 = Complete.
Proof.
  intros Hn Hpos fp k Hk Hsc Hreply out. subst out.
  rewrite download_file_transfer by done. cbv zeta. fold fp.
  rewrite reconcile_max by done. rewrite getsize_makedirs. fold k.
  cbn [fst snd]. unfold range_header, open_mode.
  replace (k >? 0)%Z with true by lia.
  set (w1 := makedirs (category_path_of download_dest item) w).
  pose proof (download_body_success net (Some k) ab fp
    (set_downloaded_bytes k item) w1 _ Hreply eq_refl eq_refl) as Hbody.
  rewrite download_with_retry_first_success by (by rewrite Hbody).
  rewrite Hbody. cbn [fst snd chunks].
  set (w2 := open_file fp ab _).
  pose proof (write_loop_item fp body (set_downloaded_bytes k item) w2) as Hi.
  pose proof (write_loop_files fp body (set_downloaded_bytes k item) w2) as Hw.
  destruct (foldl _ _ body) as [item3 w3]. simpl in Hi, Hw.
  unfold settle; simpl. subst item3.
  assert (files w2 !! fp = Some (default [] (files w !! fp))) as Hopen.
  { subst w2. simpl. by rewrite lookup_insert_eq. }
  assert (files w3 !! fp = Some (default [] (files w !! fp) ++ concat body))
    as Hfile.
  { subst w3. destruct (concat body) as [|b rest] eqn:E.
    - by rewrite app_nil_r.
    - unfold write_file; simpl. rewrite lookup_insert_eq.
      fold fp. by rewrite lookup_insert_eq. }
  assert (requests w3 = requests w ++ [mkRequest GET (url item) (Some k)])
    as Hreq.
  { subst w3. by destruct (concat body). }
  repeat split.
  - done.
  - done.
  - unfold getsize. rewrite Hfile. rewrite length_app.
    destruct (files w !! fp); simpl; lia.
  - by destruct (total_size _ =? 0)%Z.
  - by destruct (total_size _ =? 0)%Z.
Qed.

(** ** The offset is computed once per call *)

(** C2, as stated, fails: the first attempt of a fresh download writes
    four bytes and breaks.  At the top of the second attempt the counter
    and the file on disk both stand at 4, yet the second request carries
    no Range header, like the first, and the file is opened with ['wb']
    again: it is truncated and ends with the ten bytes of the second
    reply, while the counter has added both bodies. *)
Lemma retry_reuses_stale_offset :
  let item := Scenario.entry 0 10 Pending in
  let w1 := makedirs "dl/talks" Scenario.empty_world in
  let top_of_second :=
    failed_round retry_delay pause_world
      (download_body Scenario.net_breaks_once None wb Scenario.song_path)
      (item, w1) in
  let out := download_file Scenario.net_breaks_once item 1 1 Scenario.dest
               Scenario.empty_world in
  downloaded_bytes top_of_second.1 = 4%Z ∧
  getsize Scenario.song_path top_of_second.2 = 4%Z ∧
  requests out.1.2 =
    [mkRequest GET Scenario.target None; mkRequest GET Scenario.target None] ∧
  requests out.1.2 !! 1 ≠ Some (mkRequest GET Scenario.target (Some 4%Z)) ∧
  files out.1.2 !! Scenario.song_path = Some Scenario.song ∧
  downloaded_bytes out.1.1 = 14%Z.
Proof. vm_compute. by repeat split. Qed.

(** C2, amended: the starting offset, and with it the Range header and the
    open mode, are derived once per call of [download_file], from the
    stored counter and the file on disk before the first attempt; every
    retry of that call repeats the same request with the same mode. *)
Theorem every_attempt_repeats_first_request (net : Net) (item : FileRecord)
    (idx total : nat) (download_dest : string) (w : World) :
  status item ≠ Complete ->
  short_circuits download_dest item w = false ->
  let fp := filepath_of download_dest item in
  let w1 := makedirs (category_path_of download_dest item) w in
  let r := reconcile fp item w1 in
  let out := download_file net item idx total download_dest w in
  out = settle idx total r.1
          (retry_request max_retries retry_delay pause_world
             (download_body net (range_header r.1) (open_mode r.1) fp)
             (r.2, w1)) ∧
  exists n, 1 <= n <= max_retries ∧
    requests out.1.2 =
      requests w ++ replicate n (mkRequest GET (url item) (range_header r.1)).
Proof.
  intros Hn Hsc fp w1 r out. subst out.
  rewrite download_file_transfer by done. cbv zeta. fold fp w1 r.
  split; [done|].
  pose proof (reconcile_spec fp item w1) as [Hrec _]. fold r in Hrec.
  unfold download_with_retry, retry_request.
  pose proof (retry_loop_requests net (range_header r.1) (open_mode r.1) fp
    (seq 0 max_retries) r.2 w1) as (n & Hle & Hge & Hr & _).
  destruct (retry_loop _ _ _ _ _ _) as [[item2 w2] res]. simpl in Hle, Hr.
  exists n. split; [split; [by apply Hge | done]|].
  replace (url r.2) with (url item) in Hr by (by rewrite Hrec).
  unfold settle; simpl. by destruct res.
Qed.

(** ** Complete entries and their counters *)

(** C4, as stated, fails.  The server is honest: the first reply breaks
    after four bytes, the retry is served in full.  The entry is marked
    complete with a counter of 14 against a total size of 10. *)
Lemma complete_with_counter_past_total :
  let item := Scenario.entry 0 10 Pending in
  let out := download_file Scenario.net_breaks_once item 1 1 Scenario.dest
               Scenario.empty_world in
  status out.1.1 = Complete ∧
  downloaded_bytes out.1.1 = 14%Z ∧
  total_size out.1.1 = 10%Z ∧
  downloaded_bytes out.1.1 ≠ total_size out.1.1.
Proof. vm_compute. by repeat split. Qed.

(** C4, amended: when [download_file] marks an entry complete, the counter
    equals the total size in two cases: on the short circuit of step 3, and
    after a transfer whose total size was unknown (0), where the total size
    is set to the final counter.  After a transfer with a known total size
    the total size is kept as it was and the counter is not compared with
    it. *)
Theorem complete_counter_equals_total_when_skipped_or_unknown (net : Net)
    (item : FileRecord) (idx total : nat) (download_dest : string)
    (w : World) :
  status item ≠ Complete ->
  let out := download_file net item idx total download_dest w in
  status out.1.1 = Complete ->
  (short_circuits download_dest item w = true ->
   downloaded_bytes out.1.1 = total_size out.1.1 ∧
   total_size out.1.1 = total_size item) ∧
  (total_size item = 0%Z ->
   total_size out.1.1 = downloaded_bytes out.1.1) ∧
  (total_size item ≠ 0%Z -> total_size out.1.1 = total_size item).
Proof.
  intros Hn out Hc. subst out.
  destruct (short_circuits download_dest item w) eqn:Hsc.
  - unfold short_circuits in Hsc. apply andb_true_iff in Hsc as [HT Hk].
    rewrite download_file_short_circuit in * by (done || lia).
    simpl. split; [done|]. split; [lia|done].
  - split; [done|].
    rewrite download_file_transfer in * by done. cbv zeta in *.
    set (fp := filepath_of download_dest item) in *.
    set (w1 := makedirs (category_path_of download_dest item) w) in *.
    pose proof (reconcile_spec fp item w1) as [Hrec _].
    destruct (reconcile fp item w1) as [k item1]. cbn [fst snd] in *.
    unfold download_with_retry, retry_request in *.
    pose proof (retry_loop_requests net (range_header k) (open_mode k) fp
      (seq 0 max_retries) item1 w1) as (_ & _ & _ & _ & Hi & _).
    destruct (retry_loop _ _ _ _ _ _) as [[item2 w2] res].
    cbn [fst snd] in *.
    assert (total_size item2 = total_size item) as HT
      by (by rewrite Hi, Hrec).
    unfold settle in *. cbn [fst snd] in *.
    destruct res as [e|v]; [done|]. cbn [fst snd] in *.
    change (total_size (set_status Complete item2)) with (total_size item2)
      in *.
    rewrite HT in *.
    destruct (total_size item =? 0)%Z eqn:E; simpl; split; lia.
Qed.

(** ** The previous revision writes error pages into the file *)

(** C7 at [working.py]: the server answers 404 with an error page.  The
    transfer of [working.py] reports success after one request and the
    destination holds the error page.  On the same reply the transfer of
    [latest.py] raises the HTTP error on each of its three attempts and
    creates no file. *)
Theorem working_writes_error_page_and_succeeds :
  let old := Working.download_with_retry Scenario.net_not_found
               Scenario.target None wb Scenario.song_path
               Scenario.empty_world in
  let new := download_with_retry Scenario.net_not_found None wb
               Scenario.song_path
               (Scenario.entry 0 0 Pending, Scenario.empty_world) in
  old.2 = inr (Some tt) ∧
  length (requests old.1) = 1 ∧
  files old.1 !! Scenario.song_path = Some Scenario.error_page ∧
  new.2 = inl (HTTPError 404) ∧
  length (requests new.1.2) = 3 ∧
  files new.1.2 !! Scenario.song_path = None ∧
  downloaded_bytes new.1.1 = 0%Z.
Proof. vm_compute. by repeat split. Qed.

(** ** The pool: what every schedule preserves *)

Lemma download_file_cache (net : Net) (item : FileRecord) (idx total : nat)
    (download_dest : string) (w : World) :
  cache (download_file net item idx total download_dest w).1.2 = cache w.
Proof.
  unfold download_file.
  destruct (decide (status item = Complete)); [done|].
  destruct (reconcile _ item _) as [k item1].
  destruct (_ && _); [done|].
  unfold download_with_retry, retry_request.
  pose proof (retry_loop_requests net (range_header k) (open_mode k)
    (path_join (path_join download_dest (category item)) (filename item))
    (seq 0 max_retries) item1
    (makedirs (path_join download_dest (category item)) w))
    as (_ & _ & _ & _ & _ & _ & _ & Hc).
  destruct (retry_loop _ _ _ _ _ _) as [[item2 w2] [e|v]]; simpl in *; done.
Qed.

(** An invariant of the steps is an invariant of the run. *)
Lemma run_invariant (net : Net) (download_dest : string) (P : Sched -> Prop) :
  (forall ev s s', P s -> sched_step net download_dest ev s = Some s' -> P s') ->
  forall schedule s s',
    P s -> run net download_dest schedule s = Some s' -> P s'.
Proof.
  intros Hstep schedule. induction schedule as [|ev rest IH]; intros s s' Hs.
  - simpl. by intros [= <-].
  - simpl. destruct (sched_step net download_dest ev s) as [s1|] eqn:E;
      [|done].
    apply IH. by eapply Hstep.
Qed.

Lemma run_app (net : Net) (download_dest : string) (pre post : list Event)
    (s : Sched) :
  run net download_dest (pre ++ post) s =
  match run net download_dest pre s with
  | Some s1 => run net download_dest post s1
  | None => None
  end.
Proof.
  revert s. induction pre as [|ev pre IH]; intros s; simpl; [done|].
  destruct (sched_step net download_dest ev s); [apply IH|done].
Qed.

Lemma all_collected_lookup (ps : list Phase) (i : nat) (p : Phase) :
  all_collected ps = true -> ps !! i = Some p -> p = Collected.
Proof.
  unfold all_collected. rewrite forallb_forall. intros Hall Hi.
  apply list_elem_of_lookup_2, list_elem_of_In in Hi.
  specialize (Hall p Hi). by apply bool_decide_eq_true in Hall.
Qed.

(** The case analysis of one step, with the side conditions each event
    needs in order to be enabled. *)
Lemma sched_step_cases (net : Net) (download_dest : string) (ev : Event)
    (s s' : Sched) :
  sched_step net download_dest ev s = Some s' ->
  (exists i, ev = Start i ∧ phases s !! i = Some Queued ∧
     running (phases s) < max_threads ∧
     s' = mkSched (catalog s) (world s) (<[i := Running]> (phases s))
            (printed s) (finalized s)) ∨
  (exists i item, ev = Finish i ∧ phases s !! i = Some Running ∧
     catalog s !! i = Some item ∧
     let r := download_file net item (S i) (length (catalog s))
                download_dest (world s) in
     s' = mkSched (<[i := r.1.1]> (catalog s)) r.1.2
            (<[i := Finished r.2]> (phases s)) (printed s) (finalized s)) ∨
  (exists i result_msg modified, ev = Collect i ∧
     phases s !! i = Some (Finished (result_msg, modified)) ∧
     s' = mkSched (catalog s)
            (if modified then save_cache (catalog s) (world s) else world s)
            (<[i := Collected]> (phases s))
            (printed s ++ option_list result_msg) (finalized s)) ∨
  (ev = FinalSave ∧ finalized s = false ∧ all_collected (phases s) = true ∧
     s' = mkSched (catalog s) (save_cache (catalog s) (world s))
            (phases s) (printed s) true).
Proof.
  intros Hstep. destruct ev as [i|i|i|]; simpl in Hstep.
  - left. destruct (phases s !! i) as [[| |res|]|] eqn:E; try done.
    destruct (decide (running (phases s) < max_threads)); [|done].
    injection Hstep as <-. by exists i.
  - right; left. destruct (phases s !! i) as [[| |res|]|] eqn:E; try done.
    destruct (catalog s !! i) as [item|] eqn:Ei; [|done].
    injection Hstep as <-. by exists i, item.
  - right; right; left.
    destruct (phases s !! i) as [[| |[msg modified]|]|] eqn:E; try done.
    injection Hstep as <-. by exists i, msg, modified.
  - right; right; right. destruct (finalized s) eqn:Ef; [done|].
    destruct (all_collected (phases s)) eqn:Ea; [|done].
    by injection Hstep as <-.
Qed.

Lemma final_consistent_step (net : Net) (download_dest : string) (ev : Event)
    (s s' : Sched) :
  final_consistent s -> sched_step net download_dest ev s = Some s' ->
  final_consistent s'.
Proof.
  intros Hinv Hstep Hfin.
  destruct (sched_step_cases _ _ _ _ _ Hstep)
    as [(i & -> & Hi & _ & ->)|[(i & item & -> & Hi & _ & Hs')|
        [(i & msg & modified & -> & Hi & ->)|(-> & Hf & Ha & ->)]]];
    simpl in *.
  - destruct (Hinv Hfin) as [Hall _].
    by pose proof (all_collected_lookup _ _ _ Hall Hi).
  - subst s'. simpl in *. destruct (Hinv Hfin) as [Hall _].
    by pose proof (all_collected_lookup _ _ _ Hall Hi).
  - destruct (Hinv Hfin) as [Hall _].
    by pose proof (all_collected_lookup _ _ _ Hall Hi).
  - done.
Qed.

Lemma settled_step (net : Net) (download_dest : string) (ev : Event)
    (s s' : Sched) (j : nat) :
  settled s j -> sched_step net download_dest ev s = Some s' ->
  settled s' j ∧ catalog s' !! j = catalog s !! j.
Proof.
  unfold settled. intros Hj Hstep.
  destruct (sched_step_cases _ _ _ _ _ Hstep)
    as [(i & -> & Hi & _ & ->)|[(i & item & -> & Hi & _ & Hs')|
        [(i & msg & modified & -> & Hi & ->)|(-> & Hf & Ha & ->)]]];
    simpl in *.
  - destruct (decide (i = j)) as [->|Hne].
    + by rewrite Hi in Hj.
    + by rewrite list_lookup_insert_ne.
  - subst s'. simpl. destruct (decide (i = j)) as [->|Hne].
    + by rewrite Hi in Hj.
    + by rewrite !list_lookup_insert_ne.
  - split; [|done]. destruct (decide (i = j)) as [->|Hne].
    + rewrite list_lookup_insert_eq; [done|]. by eapply lookup_lt_Some.
    + by rewrite list_lookup_insert_ne.
  - done.
Qed.

Lemma settled_run (net : Net) (download_dest : string)
    (schedule : list Event) (s s' : Sched) (j : nat) :
  settled s j -> run net download_dest schedule s = Some s' ->
  catalog s' !! j = catalog s !! j.
Proof.
  revert s. induction schedule as [|ev rest IH]; intros s Hj; simpl.
  - by intros [= <-].
  - destruct (sched_step net download_dest ev s) as [s1|] eqn:E; [|done].
    intros Hrun. destruct (settled_step _ _ _ _ _ _ Hj E) as [Hj1 Heq].
    rewrite <- Heq. by apply IH.
Qed.

Lemma catalog_length_step (net : Net) (download_dest : string) (ev : Event)
    (s s' : Sched) :
  sched_step net download_dest ev s = Some s' ->
  length (catalog s') = length (catalog s).
Proof.
  intros Hstep.
  destruct (sched_step_cases _ _ _ _ _ Hstep)
    as [(i & -> & Hi & _ & ->)|[(i & item & -> & Hi & _ & Hs')|
        [(i & msg & modified & -> & Hi & ->)|(-> & Hf & Ha & ->)]]];
    simpl in *; try done.
  subst s'. simpl. by rewrite length_insert.
Qed.

(** Only the main thread writes the cache file: a step that changes it is
    the collection of a result or the final save.  Saves are therefore
    never concurrent with one another. *)
Lemma cache_written_by_main_thread_only (net : Net) (download_dest : string)
    (ev : Event) (s s' : Sched) :
  sched_step net download_dest ev s = Some s' ->
  cache (world s') ≠ cache (world s) ->
  (exists i, ev = Collect i) ∨ ev = FinalSave.
Proof.
  intros Hstep Hne.
  destruct (sched_step_cases _ _ _ _ _ Hstep)
    as [(i & -> & Hi & _ & ->)|[(i & item & -> & Hi & _ & Hs')|
        [(i & msg & modified & -> & Hi & ->)|(-> & Hf & Ha & ->)]]];
    simpl in *.
  - done.
  - subst s'. simpl in Hne. by rewrite download_file_cache in Hne.
  - left. by exists i.
  - by right.
Qed.

(** ** Concurrent completions and the final save *)

(** C8: take any schedule of the pool, that is any interleaving of worker
    starts, worker completions and collections by the main thread, that
    runs to the final save.  Whenever a worker finished an entry during
    that schedule, the cache file written last holds the whole catalog as
    it is in memory, and in it the entry exactly as that worker left it.
    The worker itself never writes the cache file. *)
Theorem final_cache_reflects_every_completion (net : Net)
    (download_dest : string) (file_list : list FileRecord) (w : World)
    (pre post : list Event) (i : nat) (s1 s2 s : Sched) :
  run net download_dest pre (submit_all file_list w) = Some s1 ->
  sched_step net download_dest (Finish i) s1 = Some s2 ->
  run net download_dest post s2 = Some s ->
  finalized s = true ->
  exists item,
    catalog s1 !! i = Some item ∧
    cache (world s2) = cache (world s1) ∧
    cache (world s) = Some (catalog s) ∧
    catalog s !! i =
      Some (download_file net item (S i) (length file_list) download_dest
              (world s1)).1.1.
Proof.
  intros Hpre Hfin Hpost Hfinal.
  assert (length (catalog s1) = length file_list) as Hlen.
  { apply (run_invariant net download_dest
             (fun s => length (catalog s) = length file_list))
      with (schedule := pre) (s := submit_all file_list w); [|done|done].
    intros ev t t' Ht Hstep.
    by rewrite (catalog_length_step _ _ _ _ _ Hstep). }
  assert (final_consistent s) as Hcons.
  { apply (run_invariant net download_dest final_consistent)
      with (schedule := pre ++ Finish i :: post)
           (s := submit_all file_list w).
    - intros ev t t'. apply final_consistent_step.
    - by intros Hf.
    - rewrite run_app, Hpre. cbn [run]. by rewrite Hfin. }
  destruct (Hcons Hfinal) as [_ Hcache].
  destruct (sched_step_cases _ _ _ _ _ Hfin)
    as [(j & [=] & _)|[(j & item & [= <-] & Hi & Hitem & Hs2)|
        [(j & msg & modified & [=] & _)|([=] & _)]]].
  simpl in Hs2. rewrite Hlen in Hs2.
  exists item. split; [done|]. split; [|split; [done|]].
  - subst s2. simpl. apply download_file_cache.
  - assert (settled s2 i) as Hset.
    { unfold settled. subst s2. simpl.
      rewrite list_lookup_insert_eq; [done|]. by eapply lookup_lt_Some. }
    rewrite (settled_run _ _ _ _ _ _ Hset Hpost). subst s2. simpl.
    rewrite list_lookup_insert_eq; [done|]. by eapply lookup_lt_Some.
Qed.

(** ** A catalog that is already complete *)

Lemma size_check_all_complete (net : Net) (file_list : list FileRecord)
    (w : World) :
  Forall (fun item => status item = Complete) file_list ->
  size_check net file_list w = (file_list, w).
Proof.
  intros Hall. unfold size_check.
  replace (existsb needs_size_check file_list) with false; [done|].
  symmetry. induction Hall as [|item rest Hc _ IH]; [done|].
  simpl. rewrite IH. unfold needs_size_check.
  rewrite bool_decide_eq_false_2; [done|]. by intros Hn.
Qed.

Lemma untouched_step (net : Net) (download_dest : string)
    (file_list : list FileRecord) (w : World) (ev : Event) (s s' : Sched) :
  Forall (fun item => status item = Complete) file_list ->
  untouched file_list w s ->
  sched_step net download_dest ev s = Some s' ->
  untouched file_list w s'.
Proof.
  intros Hall (Hcat & Hreq & Hfiles & Hj & Hsl & Hcache & Hres) Hstep.
  destruct (sched_step_cases _ _ _ _ _ Hstep)
    as [(i & -> & Hi & _ & ->)|[(i & item & -> & Hi & Hitem & Hs')|
        [(i & msg & modified & -> & Hi & ->)|(-> & Hf & Ha & ->)]]];
    unfold untouched; simpl in *.
  - repeat split; try done. intros j res Hjres.
    apply list_lookup_insert_Some in Hjres as [(_ & [=] & _)|[_ Hjres]].
    by eapply Hres.
  - assert (status item = Complete) as Hc.
    { rewrite Hcat in Hitem. by eapply (Forall_lookup_1 _ _ _ _ Hall). }
    rewrite download_file_complete in Hs' by done. subst s'. simpl.
    rewrite list_insert_id by done.
    repeat split; try done. intros j res Hjres.
    apply list_lookup_insert_Some in Hjres as [(_ & [= <-] & _)|[_ Hjres]];
      [done|].
    by eapply Hres.
  - pose proof (Hres _ _ Hi) as [= -> ->].
    repeat split; try done. intros j res Hjres.
    apply list_lookup_insert_Some in Hjres as [(_ & [=] & _)|[_ Hjres]].
    by eapply Hres.
  - repeat split; try done. by rewrite Hcat.
Qed.

(** C6: a run over a catalog in which every entry is complete sends no
    request at all (no HEAD probe, no GET), whatever the schedule of the
    pool, and leaves every entry and every file as they were; nothing is
    added to the journal.  The only writes are the category directories
    and, at the very end, the cache file, which receives the unchanged
    catalog. *)
Theorem complete_catalog_run_is_noop (net : Net) (download_dest : string)
    (file_list : list FileRecord) (w : World) (schedule : list Event)
    (s : Sched) :
  Forall (fun item => status item = Complete) file_list ->
  main net download_dest file_list w schedule = Some s ->
  requests (world s) = requests w ∧
  catalog s = file_list ∧
  files (world s) = files w ∧
  journal (world s) = journal w ∧
  cache (world s) = (if finalized s then Some file_list else cache w).
Proof.
  intros Hall Hmain. unfold main in Hmain.
  rewrite size_check_all_complete in Hmain by done. simpl in Hmain.
  assert (untouched file_list w s) as (Hcat & Hreq & Hfiles & Hj & _ & Hc & _).
  { apply (run_invariant net download_dest (untouched file_list w))
      with (schedule := schedule) (s := submit_all file_list w); [| |done].
    - intros ev t t'. by apply untouched_step.
    - unfold untouched, submit_all; simpl. repeat split; try done.
      intros i res Hi. by apply lookup_replicate_1 in Hi as [[=] _]. }
  done.
Qed.

(** ** The pool always reaches the final save *)

Lemma running_replicate (n : nat) (p : Phase) :
  p ≠ Running -> running (replicate n p) = 0.
Proof.
  intros Hp. unfold running. induction n as [|n IH]; [done|].
  simpl. by rewrite filter_cons_False.
Qed.

Lemma running_app (ps qs : list Phase) :
  running (ps ++ qs) = running ps + running qs.
Proof. unfold running. by rewrite filter_app, length_app. Qed.

Lemma all_collected_replicate (n : nat) :
  all_collected (replicate n Collected) = true.
Proof. unfold all_collected. induction n as [|n IH]; [done|]. by simpl. Qed.

(** One entry handled from start to collection while no other worker is
    active. *)
Lemma one_entry_in_turn (net : Net) (download_dest : string) (i m : nat)
    (s : Sched) :
  length (catalog s) = i + S m ->
  phases s = replicate i Collected ++ replicate (S m) Queued ->
  exists s',
    run net download_dest [Start i; Finish i; Collect i] s = Some s' ∧
    length (catalog s') = length (catalog s) ∧
    phases s' = replicate (S i) Collected ++ replicate m Queued ∧
    finalized s' = finalized s.
Proof.
  intros Hlen Hph.
  assert (phases s !! i = Some Queued) as Hq.
  { rewrite Hph, lookup_app_r by (by rewrite length_replicate).
    rewrite length_replicate, Nat.sub_diag. done. }
  assert (running (phases s) < max_threads) as Hrun.
  { rewrite Hph, running_app, !running_replicate by done.
    unfold max_threads. lia. }
  assert (i < length (phases s)) as Hi by (by eapply lookup_lt_Some).
  destruct (lookup_lt_is_Some_2 (catalog s) i) as [item Hitem]; [lia|].
  cbn [run]. unfold sched_step at 1. rewrite Hq.
  destruct (decide (running (phases s) < max_threads)) as [_|?]; [|done].
  unfold sched_step at 1. cbn [phases catalog world printed finalized].
  rewrite list_lookup_insert_eq by done. rewrite Hitem.
  unfold sched_step at 1. cbn [phases catalog world printed finalized].
  rewrite list_lookup_insert_eq by (by rewrite length_insert).
  destruct (download_file net item (S i) (length (catalog s)) download_dest
              (world s)) as [[item' w'] [msg modified]].
  cbn [fst snd]. eexists. split; [done|].
  cbn [phases catalog world printed finalized].
  rewrite length_insert, !list_insert_insert_eq. split; [done|].
  split; [|done].
  rewrite Hph.
  rewrite insert_app_r_alt by (by rewrite length_replicate).
  rewrite length_replicate, Nat.sub_diag. simpl.
  by rewrite cons_middle, app_assoc, <- replicate_S_end.
Qed.

Lemma sequential_schedule_completes_from (net : Net) (download_dest : string)
    (m i : nat) (s : Sched) :
  length (catalog s) = i + m ->
  phases s = replicate i Collected ++ replicate m Queued ->
  finalized s = false ->
  exists s',
    run net download_dest (sequential_schedule i m) s = Some s' ∧
    finalized s' = true.
Proof.
  revert i s. induction m as [|m IH]; intros i s Hlen Hph Hfin.
  - unfold sequential_schedule. simpl. rewrite Hfin, Hph, app_nil_r.
    rewrite all_collected_replicate. by eexists.
  - destruct (one_entry_in_turn net download_dest i m s Hlen Hph)
      as (s1 & Hrun & Hlen1 & Hph1 & Hfin1).
    destruct (IH (S i) s1) as (s' & Hrun' & Hfin'); [lia|done|congruence|].
    exists s'. split; [|done].
    unfold sequential_schedule in *.
    change (seq i (S m)) with (i :: seq (S i) m). cbn [flat_map].
    rewrite <- app_assoc, run_app, Hrun. done.
Qed.

(** Whatever the catalog, the world and the server, some schedule takes the
    run to the final save. *)
Lemma sequential_schedule_completes (net : Net) (download_dest : string)
    (file_list : list FileRecord) (w : World) :
  exists s,
    main net download_dest file_list w
      (sequential_schedule 0 (length (size_check net file_list w).1))
      = Some s ∧
    finalized s = true.
Proof.
  unfold main.
  apply sequential_schedule_completes_from; simpl; done.
Qed.

(** ** The end-to-end scenario, as a sanity run of the model *)

(** A fresh download of the ten bytes, then a resume from four bytes on
    disk against a server that honours Range. *)
Example fresh_download_completes :
  let out := download_file Scenario.net_honours_range
               (Scenario.entry 0 0 Pending) 1 1 Scenario.dest
               Scenario.empty_world in
  out.1.1 = Scenario.entry 10 10 Complete ∧
  requests out.1.2 = [mkRequest GET Scenario.target None] ∧
  files out.1.2 !! Scenario.song_path = Some Scenario.song.
Proof. vm_compute. by repeat split. Qed.

Example resume_appends_the_rest :
  let out := download_file Scenario.net_honours_range
               (Scenario.entry 0 10 Pending) 1 1 Scenario.dest
               Scenario.four_bytes_on_disk in
  out.1.1 = Scenario.entry 10 10 Complete ∧
  requests out.1.2 = [mkRequest GET Scenario.target (Some 4%Z)] ∧
  files out.1.2 !! Scenario.song_path = Some Scenario.song.
Proof. vm_compute. by repeat split. Qed.

(** ** Instances of the theorems on the concrete runs *)

Lemma range_ignored_body_is_appended_witness :
  short_circuits Scenario.dest (Scenario.entry 4 10 Pending)
    Scenario.four_bytes_on_disk = false ∧
  getsize Scenario.song_path
    (download_file Scenario.net_ignores_range (Scenario.entry 4 10 Pending)
       1 1 Scenario.dest Scenario.four_bytes_on_disk).1.2 = (4 + 10)%Z.
Proof.
  split; [by vm_compute|].
  destruct (range_ignored_body_is_appended Scenario.net_ignores_range
              (Scenario.entry 4 10 Pending) 1 1 Scenario.dest
              Scenario.four_bytes_on_disk [Scenario.song])
    as (_ & _ & Hsize & _);
    [done | done | by vm_compute | by vm_compute | done |].
  exact Hsize.
Defined.

Lemma every_attempt_repeats_first_request_witness :
  short_circuits Scenario.dest (Scenario.entry 0 10 Pending)
    Scenario.empty_world = false ∧
  exists n, 1 <= n <= max_retries ∧
    requests
      (download_file Scenario.net_breaks_once (Scenario.entry 0 10 Pending)
         1 1 Scenario.dest Scenario.empty_world).1.2 =
    replicate n (mkRequest GET Scenario.target None).
Proof.
  split; [by vm_compute|].
  destruct (every_attempt_repeats_first_request Scenario.net_breaks_once
              (Scenario.entry 0 10 Pending) 1 1 Scenario.dest
              Scenario.empty_world)
    as (_ & n & Hn & Hreq); [done | by vm_compute |].
  exists n. split; [done|]. exact Hreq.
Defined.

Lemma exhausted_retries_fail_and_journal_once_witness :
  all_attempts_fail Scenario.net_down ∧
  let out := download_file Scenario.net_down (Scenario.entry 0 10 Pending)
               1 1 Scenario.dest Scenario.empty_world in
  length (requests out.1.2) = max_retries ∧
  length (sleeps out.1.2) = max_retries - 1 ∧
  length (journal out.1.2) = 1 ∧
  status out.1.1 = Failed.
Proof.
  assert (all_attempts_fail Scenario.net_down) as Hdown
    by (intros n req; by eexists).
  split; [done|].
  destruct (exhausted_retries_fail_and_journal_once Scenario.net_down
              (Scenario.entry 0 10 Pending) 1 1 Scenario.dest
              Scenario.empty_world)
    as (req & e & st & _ & _ & Hreq & Hsl & _ & Hst & Hj & _);
    [done | by vm_compute | done |].
  simpl. rewrite Hreq, Hsl, Hj. by repeat split.
Defined.

Lemma complete_counter_equals_total_when_skipped_or_unknown_witness :
  let out := download_file Scenario.net_honours_range
               (Scenario.entry 0 0 Pending) 1 1 Scenario.dest
               Scenario.empty_world in
  status out.1.1 = Complete ∧ total_size out.1.1 = downloaded_bytes out.1.1.
Proof.
  simpl. split; [by vm_compute|].
  destruct (complete_counter_equals_total_when_skipped_or_unknown
              Scenario.net_honours_range (Scenario.entry 0 0 Pending) 1 1
              Scenario.dest Scenario.empty_world)
    as (_ & Hzero & _); [done | by vm_compute |].
  by apply Hzero.
Defined.

Lemma resume_offset_is_larger_size_witness :
  let item := Scenario.entry 2 10 Pending in
  (0 <= downloaded_bytes item)%Z ∧
  reconcile Scenario.song_path item
    (makedirs "dl/talks" Scenario.four_bytes_on_disk) =
  (4%Z, set_downloaded_bytes 4 item).
Proof.
  simpl. split; [done|].
  destruct (resume_offset_is_larger_size Scenario.net_honours_range
              (Scenario.entry 2 10 Pending) 1 1 Scenario.dest
              Scenario.four_bytes_on_disk)
    as (_ & Hrec & _); [done | done |].
  exact Hrec.
Defined.

Lemma short_circuit_sets_counter_to_total_witness :
  let item := Scenario.entry 0 3 Failed in
  (total_size item <=
     Z.max (downloaded_bytes item)
       (getsize (filepath_of Scenario.dest item)
          Scenario.four_bytes_on_disk))%Z ∧
  let out := download_file Scenario.net_down item 1 1 Scenario.dest
               Scenario.four_bytes_on_disk in
  status out.1.1 = Complete ∧ downloaded_bytes out.1.1 = 3%Z ∧
  requests out.1.2 = [].
Proof.
  simpl. assert (3 <= Z.max 0
    (getsize (filepath_of Scenario.dest (Scenario.entry 0 3 Failed))
       Scenario.four_bytes_on_disk))%Z as Hmax by (by vm_compute).
  split; [exact Hmax|].
  destruct (short_circuit_sets_counter_to_total Scenario.net_down
              (Scenario.entry 0 3 Failed) 1 1 Scenario.dest
              Scenario.four_bytes_on_disk)
    as (_ & Hst & Hdb & _ & Hreq & _); [done | done | exact Hmax |].
  by repeat split.
Defined.

Lemma complete_entry_kept_directory_created_witness :
  let item := Scenario.entry 10 10 Complete in
  let out := download_file Scenario.net_down item 1 1 Scenario.dest
               Scenario.empty_world in
  status item = Complete ∧
  out.2 = (None, false) ∧ out.1.1 = item ∧ "dl/talks" ∈ dirs out.1.2.
Proof.
  simpl. split; [done|].
  destruct (complete_entry_kept_directory_created Scenario.net_down
              (Scenario.entry 10 10 Complete) 1 1 Scenario.dest
              Scenario.empty_world)
    as (Hres & Hitem & _ & Hdir & _); [done|].
  by repeat split.
Defined.

Lemma complete_catalog_run_is_noop_witness :
  let file_list := [Scenario.entry 10 10 Complete;
                    Scenario.entry 10 10 Complete] in
  let schedule := [Start 1; Start 0; Finish 0; Finish 1; Collect 1;
                   Collect 0; FinalSave] in
  exists s,
    main Scenario.net_down Scenario.dest file_list
      Scenario.four_bytes_on_disk schedule = Some s ∧
    requests (world s) = [] ∧ catalog s = file_list ∧
    files (world s) = files Scenario.four_bytes_on_disk.
Proof.
  cbv zeta. eexists.
  match goal with
  | |- ?ran ∧ _ => assert ran as Hmain by (vm_compute; reflexivity)
  end.
  split; [exact Hmain|].
  assert (Forall (fun item => status item = Complete)
            [Scenario.entry 10 10 Complete; Scenario.entry 10 10 Complete])
    as Hall by (by repeat constructor).
  destruct (complete_catalog_run_is_noop _ _ _ _ _ _ Hall Hmain)
    as (Hreq & Hcat & Hfiles & _).
  split; [exact Hreq|]. split; [exact Hcat|exact Hfiles].
Defined.

Lemma final_cache_reflects_every_completion_witness :
  let file_list := [Scenario.entry 0 10 Pending; Scenario.entry 0 0 Pending] in
  let start := submit_all file_list Scenario.empty_world in
  exists s1 s2 s,
    run Scenario.net_honours_range Scenario.dest [Start 1; Start 0] start
      = Some s1 ∧
    sched_step Scenario.net_honours_range Scenario.dest (Finish 1) s1
      = Some s2 ∧
    run Scenario.net_honours_range Scenario.dest
      [Finish 0; Collect 0; Collect 1; FinalSave] s2 = Some s ∧
    finalized s = true ∧
    cache (world s) = Some (catalog s).
Proof.
  cbv zeta. eexists _, _, _.
  match goal with
  | |- ?before ∧ _ =>
      assert before as Hpre by (vm_compute; reflexivity)
  end.
  match goal with
  | |- _ ∧ ?finish ∧ _ =>
      assert finish as Hfinish by (vm_compute; reflexivity)
  end.
  match goal with
  | |- _ ∧ _ ∧ ?after ∧ _ =>
      assert after as Hpost by (vm_compute; reflexivity)
  end.
  match goal with
  | |- _ ∧ _ ∧ _ ∧ ?final ∧ _ =>
      assert final as Hfinal by (vm_compute; reflexivity)
  end.
  destruct (final_cache_reflects_every_completion _ _ _ _ _ _ _ _ _ _
              Hpre Hfinish Hpost Hfinal)
    as (item & _ & _ & Hcache & _).
  split; [exact Hpre|]. split; [exact Hfinish|]. split; [exact Hpost|].
  split; [exact Hfinal|exact Hcache].
Defined.

(** * Further properties of the transfer *)

(** ** One attempt and the file it writes *)

Lemma latest_error_status_is_hard_failure_witness :
  let out := download_body Scenario.net_not_found (Some 4%Z) ab
               Scenario.song_path
               (Scenario.entry 4 10 Pending, Scenario.four_bytes_on_disk) in
  out.2 = inl (HTTPError 404) ∧
  files out.1.2 = files Scenario.four_bytes_on_disk.
Proof.
  destruct (latest_error_status_is_hard_failure Scenario.net_not_found
              (Some 4%Z) ab Scenario.song_path (Scenario.entry 4 10 Pending)
              Scenario.four_bytes_on_disk
              (mkResponse 404 [Scenario.error_page] None))
    as (Hres & _ & Hfiles); [done | done |].
  split; [exact Hres | exact Hfiles].
Defined.

(** X2.  Whatever the reply, an attempt in append mode keeps the counter in
    step with the file: the counter grows by exactly the number of bytes
    the file grows by, and no other file is touched. *)
Theorem append_attempt_counter_tracks_file (net : Net) (headers : option Z)
    (filepath : string) (item : FileRecord) (w : World) :
  let out := download_body net headers ab filepath (item, w) in
  (downloaded_bytes out.1.1 - downloaded_bytes item =
   getsize filepath out.1.2 - getsize filepath w)%Z ∧
  (forall other, other ≠ filepath ->
     files out.1.2 !! other = files w !! other).
Proof.
  unfold download_body; simpl.
  destruct (get_reply _ _ _) as [e|r]; simpl;
    [split; [unfold getsize; simpl; lia | done]|].
  destruct (raise_for_status r); simpl;
    [split; [unfold getsize; simpl; lia | done]|].
  rewrite write_loop_item, write_loop_files. simpl.
  destruct (concat (chunks r)) as [|b body] eqn:E; simpl.
  - split.
    + unfold getsize; simpl. rewrite lookup_insert_eq.
      destruct (files w !! filepath); simpl; lia.
    + intros other Hne. by rewrite lookup_insert_ne.
  - split.
    + unfold getsize; simpl. rewrite !lookup_insert_eq. simpl.
      rewrite length_app. simpl.
      destruct (files w !! filepath); simpl; lia.
    + intros other Hne. by rewrite !lookup_insert_ne.
Qed.

(** X3.  When the status line lets the body through, an attempt in write mode
    leaves in the file exactly the bytes it received, whatever the file
    held before, also when the body then breaks off. *)
Theorem write_attempt_replaces_file (net : Net) (headers : option Z)
    (filepath : string) (item : FileRecord) (w : World) (r : Response) :
  get_reply net (length (requests w)) (mkRequest GET (url item) headers)
    = GetReturns r ->
  raise_for_status r = None ->
  let out := download_body net headers wb filepath (item, w) in
  files out.1.2 !! filepath = Some (concat (chunks r)) ∧
  downloaded_bytes out.1.1 =
    (downloaded_bytes item + Z.of_nat (length (concat (chunks r))))%Z.
Proof.
  intros Hreply Hst. unfold download_body; simpl. rewrite Hreply, Hst. simpl.
  rewrite write_loop_item, write_loop_files. simpl.
  destruct (concat (chunks r)) as [|b body] eqn:E; simpl.
  - by rewrite lookup_insert_eq.
  - by rewrite !lookup_insert_eq.
Qed.

Lemma write_attempt_replaces_file_witness :
  let out := download_body Scenario.net_breaks_once None wb
               Scenario.song_path
               (Scenario.entry 0 10 Pending, Scenario.four_bytes_on_disk) in
  files out.1.2 !! Scenario.song_path = Some (take 4 Scenario.song) ∧
  downloaded_bytes out.1.1 = 4%Z.
Proof.
  destruct (write_attempt_replaces_file Scenario.net_breaks_once None
              Scenario.song_path (Scenario.entry 0 10 Pending)
              Scenario.four_bytes_on_disk
              (mkResponse 200 [take 4 Scenario.song]
                 (Some (StreamError "connection reset"))))
    as (Hfile & Hdb); [done | done |].
  split; [exact Hfile | exact Hdb].
Defined.

(** ** Failures that go away *)

Section RetrySuccess.
Context {St A : Type}.
Variables (retries : nat) (delay : Z).
Variable pause : Z -> St -> St.
Variable func : St -> St * (Exn + A).

(** If the first [j] attempts fail and the next one returns, and the loop
    still has that attempt in hand, the wrapper returns that value from
    the state the [j] failed rounds led to. *)
Lemma retry_loop_succeeds_after (j n a : nat) (s : St) (v : A) :
  a + n = retries ->
  j < n ->
  (forall i, i < j ->
     exists e,
       (func (Nat.iter i (failed_round delay pause func) s)).2 = inl e) ->
  (func (Nat.iter j (failed_round delay pause func) s)).2 = inr v ->
  retry_loop retries delay pause func (seq a n) s =
  ((func (Nat.iter j (failed_round delay pause func) s)).1, inr (Some v)).
Proof.
  revert n a s. induction j as [|j IH]; intros n a s Ha Hj Hfail Hok.
  - destruct n as [|n]; [lia|]. simpl in *.
    destruct (func s) as [s' r]. simpl in Hok. by subst r.
  - destruct n as [|n]; [lia|].
    change (seq a (S n)) with (a :: seq (S a) n). cbn [retry_loop].
    destruct (Hfail 0) as [e He]; [lia|]. simpl in He.
    destruct (func s) as [s' r] eqn:Hs. simpl in He. subst r.
    replace (_ <? _)%Z with true by lia.
    assert (failed_round delay pause func s = pause delay s') as Hround
      by (unfold failed_round; by rewrite Hs).
    rewrite Nat.iter_succ_r, Hround in Hok.
    rewrite Nat.iter_succ_r, Hround.
    apply IH; [lia | lia | | done].
    intros i Hi. destruct (Hfail (S i)) as [e' He']; [lia|].
    rewrite Nat.iter_succ_r, Hround in He'. by exists e'.
Qed.
End RetrySuccess.

(** X4.  Transient failures are absorbed: when the replies to the first [j]
    requests of a call make the attempt fail and the next reply is a clean
    success, with [j] below [max_retries], [download_with_retry] returns
    normally after [j + 1] requests and [j] delays. *)
Theorem transient_failures_are_absorbed (net : Net) (headers : option Z)
    (mode : Mode) (filepath : string) (item : FileRecord) (w : World)
    (j : nat) :
  j < max_retries ->
  (forall i, i < j ->
     is_Some (attempt_error
       (get_reply net (length (requests w) + i)
          (mkRequest GET (url item) headers)))) ->
  attempt_error
    (get_reply net (length (requests w) + j)
       (mkRequest GET (url item) headers)) = None ->
  let out := download_with_retry net headers mode filepath (item, w) in
  out.2 = inr (Some tt) ∧
  requests out.1.2 =
    requests w ++ replicate (S j) (mkRequest GET (url item) headers) ∧
  sleeps out.1.2 = sleeps w ++ replicate j retry_delay.
Proof.
  intros Hj Hfail Hok.
  assert (forall i,
    (download_body net headers mode filepath
       (Nat.iter i (failed_round retry_delay pause_world
                      (download_body net headers mode filepath))
          (item, w))).2 =
    match attempt_error
            (get_reply net (length (requests w) + i)
               (mkRequest GET (url item) headers)) with
    | Some e => inl e
    | None => inr tt
    end) as Htop.
  { intros i.
    pose proof (failed_rounds_state net headers mode filepath i item w)
      as (Hi & _ & Hr & _).
    destruct (Nat.iter i _ (item, w)) as [item1 w1]. simpl in Hi, Hr.
    rewrite download_body_result, Hr, length_app, length_replicate.
    by replace (url item1) with (url item) by (by rewrite Hi). }
  simpl. unfold download_with_retry, retry_request.
  rewrite (retry_loop_succeeds_after max_retries retry_delay pause_world
             (download_body net headers mode filepath) j max_retries 0
             (item, w) tt); [|done|done| |].
  - pose proof (failed_rounds_state net headers mode filepath j item w)
      as (Hi & _ & Hr & Hs & _).
    destruct (Nat.iter j _ (item, w)) as [item1 w1]. simpl in Hi, Hr, Hs.
    pose proof (download_body_frame net headers mode filepath item1 w1)
      as (Fr & Fs & _). simpl in Fr, Fs. simpl.
    rewrite Fr, Fs, Hr, Hs.
    replace (url item1) with (url item) by (by rewrite Hi).
    by rewrite <- app_assoc, replicate_cons_app.
  - intros i Hi. rewrite Htop. destruct (Hfail i Hi) as [e He].
    rewrite He. by exists e.
  - rewrite Htop. by rewrite Hok.
Qed.

Lemma transient_failures_are_absorbed_witness :
  let out := download_with_retry Scenario.net_breaks_once None wb
               Scenario.song_path
               (Scenario.entry 0 10 Pending, Scenario.empty_world) in
  out.2 = inr (Some tt) ∧
  length (requests out.1.2) = 2 ∧
  sleeps out.1.2 = [retry_delay].
Proof.
  destruct (transient_failures_are_absorbed Scenario.net_breaks_once None wb
              Scenario.song_path (Scenario.entry 0 10 Pending)
              Scenario.empty_world 1)
    as (Hres & Hreq & Hsl).
  - unfold max_retries. lia.
  - intros i Hi. assert (i = 0) as -> by lia. by eexists.
  - done.
  - cbv zeta. rewrite Hreq. split; [exact Hres|]. split; [done|exact Hsl].
Defined.

(** ** A transfer that succeeds at once *)

(** The first reply is a clean success: what [download_file] leaves. *)
Lemma download_file_first_reply (net : Net) (item : FileRecord)
    (idx total : nat) (download_dest : string) (w : World) (k : Z)
    (resp : Response) :
  status item ≠ Complete ->
  short_circuits download_dest item w = false ->
  let fp := filepath_of download_dest item in
  reconcile fp item (makedirs (category_path_of download_dest item) w) =
    (k, set_downloaded_bytes k item) ->
  get_reply net (length (requests w))
    (mkRequest GET (url item) (range_header k)) = GetReturns resp ->
  raise_for_status resp = None ->
  stream_error resp = None ->
  let out := download_file net item idx total download_dest w in
  requests out.1.2 =
    requests w ++ [mkRequest GET (url item) (range_header k)] ∧
  files out.1.2 !! fp =
    Some ((if (k >? 0)%Z then default [] (files w !! fp) else [])
          ++ concat (chunks resp)) ∧
  downloaded_bytes out.1.1 =
    (k + Z.of_nat (length (concat (chunks resp))))%Z ∧
  status out.1.1 = Complete ∧
  total_size out.1.1 =
    (if (total_size item =? 0)%Z
     then (k + Z.of_nat (length (concat (chunks resp))))%Z
     else total_size item) ∧
  journal out.1.2 = journal w ∧
  sleeps out.1.2 = sleeps w.
Proof.
  intros Hn Hsc fp Hrec Hreply Hst Herr out. subst out.
  rewrite download_file_transfer by done. cbv zeta. fold fp.
  rewrite Hrec. cbn [fst snd].
  set (w1 := makedirs (category_path_of download_dest item) w).
  pose proof (download_body_success net (range_header k) (open_mode k) fp
    (set_downloaded_bytes k item) w1 resp Hreply Hst Herr) as Hbody.
  rewrite download_with_retry_first_success by (by rewrite Hbody).
  rewrite Hbody. cbn [fst snd].
  set (w2 := open_file fp (open_mode k) _).
  pose proof (write_loop_item fp (chunks resp) (set_downloaded_bytes k item)
                w2) as Hi.
  pose proof (write_loop_files fp (chunks resp) (set_downloaded_bytes k item)
                w2) as Hw.
  destruct (foldl _ _ (chunks resp)) as [item3 w3]. simpl in Hi, Hw.
  unfold settle; simpl. subst item3. simpl.
  assert (files w2 !! fp =
          Some (if (k >? 0)%Z then default [] (files w !! fp) else []))
    as Hopen.
  { subst w2. unfold open_mode. destruct (k >? 0)%Z; simpl;
      by rewrite lookup_insert_eq. }
  assert (files w3 !! fp =
          Some ((if (k >? 0)%Z then default [] (files w !! fp) else [])
                ++ concat (chunks resp))) as Hfile.
  { subst w3. destruct (concat (chunks resp)) as [|b rest] eqn:E.
    - by rewrite app_nil_r.
    - unfold write_file; simpl. rewrite lookup_insert_eq.
      fold fp. by rewrite Hopen. }
  assert (requests w3 = requests w ++
            [mkRequest GET (url item) (range_header k)] ∧
          journal w3 = journal w ∧ sleeps w3 = sleeps w)
    as (Hreq & Hj & Hs).
  { subst w3 w2 w1. destruct (concat (chunks resp));
      unfold open_mode; by destruct (k >? 0)%Z. }
  destruct (total_size item =? 0)%Z; by repeat split.
Qed.

(** X5.  Resume: the file holds [k] bytes, the counter is not ahead of it, the
    total size [T] is known and larger, and the ranged GET is answered with
    the missing [T - k] bytes under any status line that is not 4xx/5xx.
    One request with [Range: bytes=k-] is sent, the body is appended to
    what was there, and the entry ends complete with counter, total size
    and file size all equal to [T]. *)
Theorem resume_appends_missing_bytes (net : Net) (item : FileRecord)
    (idx total : nat) (download_dest : string) (w : World)
    (old : list byte) (resp : Response) :
  status item ≠ Complete ->
  let fp := filepath_of download_dest item in
  let k := Z.of_nat (length old) in
  files w !! fp = Some old ->
  (0 <= downloaded_bytes item <= k)%Z ->
  (0 < k < total_size item)%Z ->
  get_reply net (length (requests w)) (mkRequest GET (url item) (Some k))
    = GetReturns resp ->
  raise_for_status resp = None ->
  stream_error resp = None ->
  Z.of_nat (length (concat (chunks resp))) = (total_size item - k)%Z ->
  let out := download_file net item idx total download_dest w in
  requests out.1.2 = requests w ++ [mkRequest GET (url item) (Some k)] ∧
  files out.1.2 !! fp = Some (old ++ concat (chunks resp)) ∧
  getsize fp out.1.2 = total_size item ∧
  downloaded_bytes out.1.1 = total_size item ∧
  total_size out.1.1 = total_size item ∧
  status out.1.1 = Complete.
Proof.
  intros Hn fp k Hold Hdb Hk Hreply Hst Herr Hlen.
  assert (getsize fp w = k) as Hsize by (unfold getsize; by rewrite Hold).
  assert (short_circuits download_dest item w = false) as Hsc.
  { unfold short_circuits. fold fp. rewrite Hsize.
    apply andb_false_iff. right. lia. }
  assert (reconcile fp item (makedirs (category_path_of download_dest item) w)
          = (k, set_downloaded_bytes k item)) as Hrec.
  { rewrite reconcile_max by lia. rewrite getsize_makedirs, Hsize.
    by replace (Z.max (downloaded_bytes item) k) with k by lia. }
  assert (range_header k = Some k) as Hrange.
  { unfold range_header. by replace (k >? 0)%Z with true by lia. }
  rewrite <- Hrange in Hreply.
  destruct (download_file_first_reply net item idx total download_dest w k
              resp Hn Hsc Hrec Hreply Hst Herr)
    as (Hreq & Hfile & Hcount & Hstatus & Htotal & _).
  fold fp in Hfile. rewrite Hrange in Hreq.
  replace (k >? 0)%Z with true in Hfile by lia. rewrite Hold in Hfile.
  simpl in Hfile.
  replace (total_size item =? 0)%Z with false in Htotal by lia.
  cbv zeta. repeat split; try done.
  - unfold getsize. rewrite Hfile, length_app. lia.
  - lia.
Qed.

(** X6.  A fresh download: nothing on disk and a counter of 0.  One request
    without Range is sent; after a clean success the file holds exactly the
    body, the counter is its length, and an unknown total size (0) is set
    to that length. *)
Theorem fresh_download_stores_body (net : Net) (item : FileRecord)
    (idx total : nat) (download_dest : string) (w : World)
    (resp : Response) :
  status item ≠ Complete ->
  let fp := filepath_of download_dest item in
  files w !! fp = None ->
  downloaded_bytes item = 0%Z ->
  get_reply net (length (requests w)) (mkRequest GET (url item) None)
    = GetReturns resp ->
  raise_for_status resp = None ->
  stream_error resp = None ->
  let out := download_file net item idx total download_dest w in
  requests out.1.2 = requests w ++ [mkRequest GET (url item) None] ∧
  files out.1.2 !! fp = Some (concat (chunks resp)) ∧
  downloaded_bytes out.1.1 = Z.of_nat (length (concat (chunks resp))) ∧
  (total_size item = 0%Z -> total_size out.1.1 = downloaded_bytes out.1.1) ∧
  status out.1.1 = Complete.
Proof.
  intros Hn fp Hnone Hdb Hreply Hst Herr.
  assert (getsize fp w = 0%Z) as Hsize by (unfold getsize; by rewrite Hnone).
  assert (short_circuits download_dest item w = false) as Hsc.
  { unfold short_circuits. fold fp. rewrite Hsize, Hdb.
    apply andb_false_iff. lia. }
  assert (reconcile fp item (makedirs (category_path_of download_dest item) w)
          = (0%Z, set_downloaded_bytes 0 item)) as Hrec.
  { rewrite reconcile_max by lia. by rewrite getsize_makedirs, Hsize, Hdb. }
  destruct (download_file_first_reply net item idx total download_dest w 0
              resp Hn Hsc Hrec Hreply Hst Herr)
    as (Hreq & Hfile & Hcount & Hstatus & Htotal & _).
  fold fp in Hfile. simpl in Hfile, Hcount, Htotal, Hreq.
  cbv zeta. repeat split; try done.
  intros HT. rewrite HT in Htotal. simpl in Htotal. lia.
Qed.

Lemma resume_appends_missing_bytes_witness :
  let out := download_file Scenario.net_honours_range
               (Scenario.entry 4 10 Pending) 1 1 Scenario.dest
               Scenario.four_bytes_on_disk in
  files Scenario.four_bytes_on_disk !! Scenario.song_path
    = Some (take 4 Scenario.song) ∧
  getsize Scenario.song_path out.1.2 = 10%Z ∧
  downloaded_bytes out.1.1 = 10%Z ∧
  status out.1.1 = Complete.
Proof.
  assert (files Scenario.four_bytes_on_disk !! Scenario.song_path
          = Some (take 4 Scenario.song)) as Hold by (by vm_compute).
  destruct (resume_appends_missing_bytes Scenario.net_honours_range
              (Scenario.entry 4 10 Pending) 1 1 Scenario.dest
              Scenario.four_bytes_on_disk (take 4 Scenario.song)
              (mkResponse 206 [drop 4 Scenario.song] None))
    as (_ & _ & Hsize & Hdb & _ & Hst).
  - done.
  - exact Hold.
  - by vm_compute.
  - by vm_compute.
  - by vm_compute.
  - done.
  - done.
  - by vm_compute.
  - split; [exact Hold|]. split; [exact Hsize|]. split; [exact Hdb|exact Hst].
Defined.

Lemma fresh_download_stores_body_witness :
  let out := download_file Scenario.net_honours_range
               (Scenario.entry 0 0 Pending) 1 1 Scenario.dest
               Scenario.empty_world in
  files Scenario.empty_world !! Scenario.song_path = None ∧
  files out.1.2 !! Scenario.song_path = Some Scenario.song ∧
  total_size out.1.1 = downloaded_bytes out.1.1.
Proof.
  assert (files Scenario.empty_world !! Scenario.song_path = None) as Hnone
    by (by vm_compute).
  destruct (fresh_download_stores_body Scenario.net_honours_range
              (Scenario.entry 0 0 Pending) 1 1 Scenario.dest
              Scenario.empty_world (mkResponse 200 [Scenario.song] None))
    as (_ & Hfile & _ & Htotal & _).
  - done.
  - exact Hnone.
  - done.
  - done.
  - done.
  - done.
  - split; [exact Hnone|]. split; [exact Hfile|by apply Htotal].
Defined.

(** ** A failed entry is tried again *)

Lemma set_status_twice (st st' : Status) (item : FileRecord) :
  set_status st' (set_status st item) = set_status st' item.
Proof. done. Qed.

Lemma write_loop_set_status (filepath : string) (cs : list (list byte))
    (st : Status) (item : FileRecord) (w : World) :
  foldl (write_chunk filepath) (set_status st item, w) cs =
  (set_status st (foldl (write_chunk filepath) (item, w) cs).1,
   (foldl (write_chunk filepath) (item, w) cs).2).
Proof.
  revert item w. induction cs as [|c cs IH]; intros item w; simpl; [done|].
  destruct c as [|b c]; simpl; [apply IH|].
  by rewrite <- IH.
Qed.

Lemma download_body_set_status (net : Net) (headers : option Z) (mode : Mode)
    (filepath : string) (st : Status) (item : FileRecord) (w : World) :
  download_body net headers mode filepath (set_status st item, w) =
  ((set_status st (download_body net headers mode filepath (item, w)).1.1,
    (download_body net headers mode filepath (item, w)).1.2),
   (download_body net headers mode filepath (item, w)).2).
Proof.
  unfold download_body; simpl.
  destruct (get_reply _ _ _) as [e|r]; [done|].
  destruct (raise_for_status r); [done|]. simpl.
  by rewrite write_loop_set_status.
Qed.

Lemma retry_loop_set_status (net : Net) (headers : option Z) (mode : Mode)
    (filepath : string) (st : Status) (attempts : list nat)
    (item : FileRecord) (w : World) :
  retry_loop max_retries retry_delay pause_world
    (download_body net headers mode filepath) attempts
    (set_status st item, w) =
  let o := retry_loop max_retries retry_delay pause_world
             (download_body net headers mode filepath) attempts (item, w) in
  ((set_status st o.1.1, o.1.2), o.2).
Proof.
  revert item w. induction attempts as [|a rest IH]; intros item w; [done|].
  cbn [retry_loop]. rewrite download_body_set_status.
  destruct (download_body net headers mode filepath (item, w))
    as [[item1 w1] [e|v]]; cbn [fst snd]; [|done].
  destruct (_ <? _)%Z; [|done].
  change (pause_world retry_delay (set_status st item1, w1))
    with (set_status st item1, sleep retry_delay w1).
  change (pause_world retry_delay (item1, w1))
    with (item1, sleep retry_delay w1).
  apply IH.
Qed.

Lemma reconcile_set_status (filepath : string) (st : Status)
    (item : FileRecord) (w : World) :
  reconcile filepath (set_status st item) w =
  ((reconcile filepath item w).1, set_status st (reconcile filepath item w).2).
Proof.
  unfold reconcile; simpl. destruct (path_exists filepath w); [|done].
  by destruct (_ >? _)%Z.
Qed.

(** X7.  The only status [download_file] looks at is ``complete'': an entry
    marked failed by an earlier run is processed exactly like the same
    entry marked pending, with the same requests, the same writes and the
    same result. *)
Theorem failed_entry_is_processed_like_pending (net : Net)
    (item : FileRecord) (idx total : nat) (download_dest : string)
    (w : World) :
  download_file net (set_status Failed item) idx total download_dest w =
  download_file net (set_status Pending item) idx total download_dest w.
Proof.
  unfold download_file. simpl.
  rewrite !reconcile_set_status.
  destruct (reconcile _ item _) as [k item1]. simpl.
  destruct (_ && _); [done|].
  unfold download_with_retry, retry_request.
  rewrite !retry_loop_set_status. cbv zeta.
  by destruct (retry_loop _ _ _ _ _ (item1, _)) as [[item2 w2] [e|v]].
Qed.

(** ** What [download_file] does to an entry that is not complete *)

(** X8.  Every entry that is not already complete comes back modified, with a
    message, and marked either complete or failed, never pending.  The
    journal gains exactly one line, for this url, when the entry ends
    failed and none when it ends complete.  The category, the file name
    and the url of the entry are kept and the cache file is not written. *)
Theorem processed_entry_ends_complete_or_failed (net : Net)
    (item : FileRecord) (idx total : nat) (download_dest : string)
    (w : World) :
  status item ≠ Complete ->
  let out := download_file net item idx total download_dest w in
  out.2.2 = true ∧ is_Some out.2.1 ∧
  (status out.1.1 = Complete ∧ journal out.1.2 = journal w ∨
   status out.1.1 = Failed ∧
   exists e, journal out.1.2 = journal w ++ [(url item, e)]) ∧
  category out.1.1 = category item ∧
  filename out.1.1 = filename item ∧
  url out.1.1 = url item ∧
  cache out.1.2 = cache w.
Proof.
  intros Hn out. subst out.
  destruct (short_circuits download_dest item w) eqn:Hsc.
  - unfold short_circuits in Hsc. apply andb_true_iff in Hsc as [HT Hk].
    rewrite download_file_short_circuit by (done || lia). simpl.
    repeat split; try done. by left.
  - rewrite download_file_transfer by done. cbv zeta.
    set (fp := filepath_of download_dest item).
    set (w1 := makedirs (category_path_of download_dest item) w).
    pose proof (reconcile_spec fp item w1) as [Hrec _].
    destruct (reconcile fp item w1) as [k item1]. cbn [fst snd] in *.
    unfold download_with_retry, retry_request.
    pose proof (retry_loop_requests net (range_header k) (open_mode k) fp
      (seq 0 max_retries) item1 w1) as (_ & _ & _ & _ & Hi & _ & Hj & Hc).
    destruct (retry_loop _ _ _ _ _ _) as [[item2 w2] res].
    cbn [fst snd] in *.
    assert (category item2 = category item ∧ filename item2 = filename item
            ∧ url item2 = url item) as (Hcat & Hname & Hurl)
      by (by rewrite Hi, Hrec).
    unfold settle. cbn [fst snd]. destruct res as [e|v]; cbn [fst snd].
    + simpl. rewrite Hj, Hurl. repeat split; try done.
      right. split; [done|]. by exists e.
    + destruct (total_size (set_status Complete item2) =? 0)%Z; simpl;
        repeat split; try done; by left.
Qed.

Lemma processed_entry_ends_complete_or_failed_witness :
  let out := download_file Scenario.net_down (Scenario.entry 0 10 Pending)
               1 1 Scenario.dest Scenario.empty_world in
  out.2.2 = true ∧ url out.1.1 = Scenario.target.
Proof.
  destruct (processed_entry_ends_complete_or_failed Scenario.net_down
              (Scenario.entry 0 10 Pending) 1 1 Scenario.dest
              Scenario.empty_world)
    as (Hmod & _ & _ & _ & _ & Hurl & _); [done|].
  split; [exact Hmod | exact Hurl].
Defined.

(** ** Requests and delays of one call *)

(** The loop of the decorator, from attempt [a] on: it sends between one
    and [n] identical requests and sleeps once between two consecutive
    ones, never after the last. *)
Lemma retry_loop_delays (net : Net) (headers : option Z) (mode : Mode)
    (filepath : string) (n a : nat) (item : FileRecord) (w : World) :
  a + S n = max_retries ->
  let out := retry_loop max_retries retry_delay pause_world
               (download_body net headers mode filepath) (seq a (S n))
               (item, w) in
  exists k,
    1 <= k <= S n ∧
    requests out.1.2 =
      requests w ++ replicate k (mkRequest GET (url item) headers) ∧
    sleeps out.1.2 = sleeps w ++ replicate (k - 1) retry_delay.
Proof.
  revert a item w. induction n as [|n IH]; intros a item w Ha.
  - simpl.
    pose proof (download_body_frame net headers mode filepath item w)
      as (Fr & Fs & _).
    destruct (download_body net headers mode filepath (item, w))
      as [[item1 w1] [e|v]]; simpl in *.
    + replace (_ <? _)%Z with false by lia. simpl.
      exists 1. rewrite Fr, Fs, app_nil_r. by repeat split.
    + exists 1. rewrite Fr, Fs, app_nil_r. by repeat split.
  - change (seq a (S (S n))) with (a :: seq (S a) (S n)).
    cbn [retry_loop]. cbv zeta.
    pose proof (download_body_frame net headers mode filepath item w)
      as (Fr & Fs & _).
    pose proof (download_body_item net headers mode filepath item w) as Fi.
    destruct (download_body net headers mode filepath (item, w))
      as [[item1 w1] [e|v]]; cbn [fst snd] in *.
    + replace (_ <? _)%Z with true by lia.
      change (pause_world retry_delay (item1, w1))
        with (item1, sleep retry_delay w1).
      destruct (IH (S a) item1 (sleep retry_delay w1))
        as (k & Hk & Hr & Hs); [lia|].
      change (requests (sleep retry_delay w1)) with (requests w1) in Hr.
      change (sleeps (sleep retry_delay w1))
        with (sleeps w1 ++ [retry_delay]) in Hs.
      exists (S k). rewrite Hr, Hs, Fr, Fs.
      replace (url item1) with (url item) by (by rewrite Fi).
      split; [lia|]. rewrite <- !app_assoc. split; [done|].
      destruct k as [|k]; [lia|]. simpl. by rewrite Nat.sub_0_r.
    + exists 1. rewrite Fr, Fs, app_nil_r. simpl. by repeat split; try lia.
Qed.

(** X9.  One call of [download_file] sends at most [max_retries] requests, all
    of them the same GET for the url of the entry, and sleeps
    [retry_delay] exactly once between two consecutive requests.  It sends
    none exactly when the entry is already complete or is short-circuited
    by the size test. *)
Theorem download_file_requests_and_delays (net : Net) (item : FileRecord)
    (idx total : nat) (download_dest : string) (w : World) :
  let out := download_file net item idx total download_dest w in
  exists n range,
    n <= max_retries ∧
    requests out.1.2 =
      requests w ++ replicate n (mkRequest GET (url item) range) ∧
    sleeps out.1.2 = sleeps w ++ replicate (n - 1) retry_delay ∧
    (n = 0 <->
     status item = Complete ∨ short_circuits download_dest item w = true).
Proof.
  cbv zeta. destruct (decide (status item = Complete)) as [Hc|Hn].
  - rewrite download_file_complete by done. simpl.
    exists 0, None. rewrite !app_nil_r. repeat split; try done; try lia.
    by left.
  - destruct (short_circuits download_dest item w) eqn:Hsc.
    + unfold short_circuits in Hsc. apply andb_true_iff in Hsc as [HT Hk].
      rewrite download_file_short_circuit by (done || lia). simpl.
      exists 0, None. rewrite !app_nil_r. repeat split; try done; try lia.
    + rewrite download_file_transfer by done. cbv zeta.
      set (fp := filepath_of download_dest item).
      set (w1 := makedirs (category_path_of download_dest item) w).
      pose proof (reconcile_spec fp item w1) as [Hrec _].
      destruct (reconcile fp item w1) as [k item1]. cbn [fst snd] in *.
      unfold download_with_retry, retry_request.
      change (seq 0 max_retries) with (seq 0 (S 2)).
      destruct (retry_loop_delays net (range_header k) (open_mode k) fp 2 0
                  item1 w1) as (n & Hn' & Hr & Hs); [done|].
      destruct (retry_loop _ _ _ _ _ _) as [[item2 w2] res].
      cbn [fst snd] in *.
      exists n, (range_header k).
      replace (url item1) with (url item) in Hr by (by rewrite Hrec).
      unfold settle. cbn [fst snd].
      split; [unfold max_retries; lia|].
      destruct res as [e|v]; cbn [fst snd]; simpl;
        (split; [done|]; split; [done|]); split; try lia;
        intros [?|?]; done.
Qed.

(** * The size pass of [main] *)






Lemma check_sizes_entries (net : Net) (file_list : list FileRecord)
    (w : World) :
  Forall2
    (fun item item' =>
       if needs_size_check item
       then item' = set_status Failed item ∨
            exists size, item' = set_total_size size item
       else item' = item)
    file_list (check_sizes net file_list w).1.
Proof.
  revert w. induction file_list as [|item rest IH]; intros w; simpl.
  - constructor.
  - constructor; [|apply IH].
    destruct (needs_size_check item); [|done]. simpl.
    unfold head_probe. destruct (head_reply _ _ _) as [e|cl]; simpl.
    + by left.
    + right. by eexists.
Qed.

(** X11.  The size pass keeps the catalog entry by entry.  An entry that is
    complete, or whose size is already known, is left exactly as it was.
    A probed entry changes in one of two ways only: its total size is set,
    or it is marked failed; its counter, category, file name and url are
    kept, and it is never marked complete. *)
Theorem size_check_keeps_settled_entries (net : Net)
    (file_list : list FileRecord) (w : World) :
  Forall2
    (fun item item' =>
       (status item = Complete ∨ total_size item ≠ 0%Z -> item' = item) ∧
       (item' = item ∨ item' = set_status Failed item ∨
        exists size, item' = set_total_size size item) ∧
       (status item ≠ Complete -> status item' ≠ Complete))
    file_list (size_check net file_list w).1.
Proof.
  unfold size_check.
  destruct (existsb needs_size_check file_list) eqn:E; simpl.
  - eapply Forall2_impl; [apply check_sizes_entries|].
    intros item item' H. simpl in H. unfold needs_size_check in H.
    destruct (bool_decide (status item ≠ Complete)) eqn:Hs;
      destruct (total_size item =? 0)%Z eqn:Ht; simpl in H.
    + apply bool_decide_eq_true in Hs.
      split; [intros [?|?]; [done|lia]|]. split; [by right|].
      intros _. destruct H as [->|[size ->]]; simpl; [done|done].
    + subst item'. repeat split; try done. by left.
    + subst item'. repeat split; try done. by left.
    + subst item'. repeat split; try done. by left.
  - apply Forall2_same_length_lookup. split; [done|].
    intros i item item' H1 H2. rewrite H1 in H2. injection H2 as <-.
    repeat split; try done. by left.
Qed.

(** * The pool *)

(** ** No more than [max_threads] workers at a time *)




(** ** What a finished run leaves in the catalog *)

Lemma download_file_identity (net : Net) (item : FileRecord)
    (idx total : nat) (download_dest : string) (w : World) :
  let out := download_file net item idx total download_dest w in
  category out.1.1 = category item ∧
  filename out.1.1 = filename item ∧
  url out.1.1 = url item ∧
  (status out.1.1 = Complete ∨ status out.1.1 = Failed).
Proof.
  cbv zeta. destruct (decide (status item = Complete)) as [Hc|Hn].
  - rewrite download_file_complete by done. simpl. repeat split. by left.
  - destruct (short_circuits download_dest item w) eqn:Hsc.
    + unfold short_circuits in Hsc. apply andb_true_iff in Hsc as [HT Hk].
      rewrite download_file_short_circuit by (done || lia). simpl.
      repeat split. by left.
    + rewrite download_file_transfer by done. cbv zeta.
      set (fp := filepath_of download_dest item).
      set (w1 := makedirs (category_path_of download_dest item) w).
      pose proof (reconcile_spec fp item w1) as [Hrec _].
      destruct (reconcile fp item w1) as [k item1]. cbn [fst snd] in *.
      unfold download_with_retry, retry_request.
      pose proof (retry_loop_requests net (range_header k) (open_mode k) fp
        (seq 0 max_retries) item1 w1) as (_ & _ & _ & _ & Hi & _).
      destruct (retry_loop _ _ _ _ _ _) as [[item2 w2] res].
      cbn [fst snd] in *.
      assert (category item2 = category item ∧ filename item2 = filename item
              ∧ url item2 = url item) as (Hcat & Hname & Hurl)
        by (by rewrite Hi, Hrec).
      unfold settle. cbn [fst snd]. destruct res as [e|v]; cbn [fst snd].
      * simpl. repeat split; try done. by right.
      * destruct (total_size (set_status Complete item2) =? 0)%Z; simpl;
          repeat split; try done; by left.
Qed.

Lemma pool_keeps_entries (net : Net) (download_dest : string)
    (file_list : list FileRecord) (w : World) (schedule : list Event)
    (s : Sched) :
  run net download_dest schedule (submit_all file_list w) = Some s ->
  length (catalog s) = length file_list ∧
  length (phases s) = length file_list ∧
  forall i item0 item p,
    file_list !! i = Some item0 -> catalog s !! i = Some item ->
    phases s !! i = Some p ->
    category item = category item0 ∧ filename item = filename item0 ∧
    url item = url item0 ∧
    match p with
    | Finished _ | Collected => status item = Complete ∨ status item = Failed
    | _ => True
    end.
Proof.
  apply (run_invariant net download_dest
    (fun s =>
       length (catalog s) = length file_list ∧
       length (phases s) = length file_list ∧
       forall i item0 item p,
         file_list !! i = Some item0 -> catalog s !! i = Some item ->
         phases s !! i = Some p ->
         category item = category item0 ∧ filename item = filename item0 ∧
         url item = url item0 ∧
         match p with
         | Finished _ | Collected =>
             status item = Complete ∨ status item = Failed
         | _ => True
         end)).
  - intros ev t t' (Hlc & Hlp & Hinv) Hstep.
    destruct (sched_step_cases _ _ _ _ _ Hstep)
      as [(i & -> & Hi & Hlt & ->)|[(i & item1 & -> & Hi & Hitem & Hs')|
          [(i & msg & modified & -> & Hi & ->)|(-> & Hf & Ha & ->)]]];
      simpl in *.
    + rewrite length_insert. split; [done|]. split; [done|].
      intros j item0 item p H0 Hc Hp.
      apply list_lookup_insert_Some in Hp as [(<- & <- & _)|[_ Hp]].
      * destruct (Hinv i item0 item Queued H0 Hc Hi) as (?&?&?&_).
        by repeat split.
      * by eapply Hinv.
    + subst t'. simpl. rewrite !length_insert.
      split; [done|]. split; [done|].
      intros j item0 item p H0 Hc Hp.
      apply list_lookup_insert_Some in Hp as [(<- & <- & _)|[Hne Hp]].
      * apply list_lookup_insert_Some in Hc as [(_ & <- & _)|[? _]];
          [|done].
        destruct (Hinv i item0 item1 Running H0 Hitem Hi) as (Hc1&Hn1&Hu1&_).
        destruct (download_file_identity net item1 (S i)
                    (length (catalog t)) download_dest (world t))
          as (Hc2 & Hn2 & Hu2 & Hst).
        rewrite Hc2, Hn2, Hu2. by repeat split.
      * rewrite list_lookup_insert_ne in Hc by done. by eapply Hinv.
    + rewrite length_insert. split; [done|]. split; [done|].
      intros j item0 item p H0 Hc Hp.
      apply list_lookup_insert_Some in Hp as [(<- & <- & _)|[_ Hp]].
      * by apply (Hinv i item0 item (Finished (msg, modified))).
      * by eapply Hinv.
    + done.
  - simpl. rewrite length_replicate. split; [done|]. split; [done|].
    intros i item0 item p H0 Hc Hp.
    apply lookup_replicate_1 in Hp as [-> _].
    rewrite H0 in Hc. injection Hc as <-. by repeat split.
Qed.

(** X13.  After a run of the pool that reached the final save, the catalog has
    the same length, every entry has kept its category, file name and url,
    and every entry is marked complete or failed: none is left pending. *)
Theorem finished_pool_leaves_no_pending_entry (net : Net)
    (download_dest : string) (file_list : list FileRecord) (w : World)
    (schedule : list Event) (s : Sched) :
  run net download_dest schedule (submit_all file_list w) = Some s ->
  finalized s = true ->
  Forall2
    (fun item0 item =>
       category item = category item0 ∧ filename item = filename item0 ∧
       url item = url item0 ∧
       (status item = Complete ∨ status item = Failed))
    file_list (catalog s).
Proof.
  intros Hrun Hfin.
  destruct (pool_keeps_entries _ _ _ _ _ _ Hrun) as (Hlc & Hlp & Hinv).
  assert (final_consistent s) as Hcons.
  { apply (run_invariant net download_dest final_consistent)
      with (schedule := schedule) (s := submit_all file_list w); [| |done].
    - intros ev t t'. apply final_consistent_step.
    - by intros Hf. }
  destruct (Hcons Hfin) as [Hall _].
  apply Forall2_same_length_lookup. split; [done|].
  intros i item0 item H0 Hc.
  destruct (lookup_lt_is_Some_2 (phases s) i) as [p Hp].
  { rewrite Hlp. by eapply lookup_lt_Some. }
  pose proof (all_collected_lookup _ _ _ Hall Hp) as ->.
  by apply (Hinv i item0 item Collected).
Qed.

Lemma finished_pool_leaves_no_pending_entry_witness :
  exists s,
    run Scenario.net_down Scenario.dest (sequential_schedule 0 2)
      (submit_all [Scenario.entry 0 10 Pending; Scenario.entry 10 10 Complete]
         Scenario.empty_world) = Some s ∧
    finalized s = true ∧
    (status <$> catalog s) = [Failed; Complete].
Proof.
  eexists.
  match goal with
  | |- ?ran ∧ _ => assert ran as Hrun by (vm_compute; reflexivity)
  end.
  match goal with
  | |- _ ∧ ?fin ∧ _ => assert fin as Hfin by (vm_compute; reflexivity)
  end.
  pose proof (finished_pool_leaves_no_pending_entry _ _ _ _ _ _ Hrun Hfin)
    as Hall.
  split; [exact Hrun|]. split; [exact Hfin|]. by vm_compute.
Defined.

(** * The previous revision: [download_file] of [working.py] *)

Lemma working_write_loop_requests (filepath : string)
    (cs : list (list byte)) (w : World) :
  requests (foldl (Working.write_chunk filepath) w cs) = requests w.
Proof.
  revert w. induction cs as [|c cs IH]; intros w; [done|]. simpl.
  rewrite IH. by destruct c.
Qed.

Lemma working_body_requests (net : Net) (target : string)
    (headers : option Z) (mode : Mode) (filepath : string) (w : World) :
  requests (Working.download_body net target headers mode filepath w).1 =
  requests w ++ [mkRequest GET target headers].
Proof.
  unfold Working.download_body. destruct (get_reply _ _ _) as [e|r]; [done|].
  simpl. rewrite working_write_loop_requests. by destruct mode.
Qed.

Lemma working_retry_requests (net : Net) (target : string)
    (headers : option Z) (mode : Mode) (filepath : string)
    (attempts : list nat) (w : World) :
  let out := retry_loop max_retries retry_delay sleep
               (Working.download_body net target headers mode filepath)
               attempts w in
  exists n, n <= length attempts ∧
    requests out.1 = requests w ++ replicate n (mkRequest GET target headers).
Proof.
  revert w. induction attempts as [|a rest IH]; intros w; simpl.
  - exists 0. by rewrite app_nil_r.
  - pose proof (working_body_requests net target headers mode filepath w)
      as Fr.
    destruct (Working.download_body net target headers mode filepath w)
      as [w1 [e|v]]; simpl in *.
    + destruct (_ <? _)%Z.
      * destruct (IH (sleep retry_delay w1)) as (n & Hn & Hr).
        exists (S n). split; [lia|]. rewrite Hr. simpl. rewrite Fr.
        by rewrite <- app_assoc.
      * exists 1. split; [lia|]. simpl. by rewrite Fr.
    + exists 1. split; [lia|]. simpl. by rewrite Fr.
Qed.

(** X14.  In [working.py] a file that exists and is not empty is taken as done:
    [download_file] returns [None] without any request, whatever the
    length of the file and whatever [skip_head]; the file is neither
    resumed nor checked against the size on the server. *)
Theorem working_skips_any_nonempty_file (net : Net) (item : FileRecord)
    (idx total : nat) (skip_head : bool) (download_dest : string)
    (w : World) (failed : list string) (content : list byte) :
  files w !! filepath_of download_dest item = Some content ->
  content ≠ [] ->
  WorkingFile.download_file net item idx total skip_head download_dest
    (w, failed) =
  ((makedirs (category_path_of download_dest item) w, failed), None).
Proof.
  intros Hfile Hne. unfold WorkingFile.download_file. simpl.
  fold (category_path_of download_dest item).
  fold (filepath_of download_dest item).
  assert (path_exists (filepath_of download_dest item)
            (makedirs (category_path_of download_dest item) w) = true) as Hex.
  { unfold path_exists. simpl. by rewrite Hfile. }
  assert ((getsize (filepath_of download_dest item)
             (makedirs (category_path_of download_dest item) w) >? 0)%Z
          = true) as Hsize.
  { unfold getsize. simpl. rewrite Hfile.
    destruct content; [done|]. reflexivity. }
  by rewrite Hex, Hsize.
Qed.

Lemma working_skips_any_nonempty_file_witness :
  files Scenario.four_bytes_on_disk
    !! filepath_of Scenario.dest (Scenario.entry 0 0 Pending)
    = Some (take 4 Scenario.song) ∧
  (WorkingFile.download_file Scenario.net_honours_range
     (Scenario.entry 0 0 Pending) 1 1 false Scenario.dest
     (Scenario.four_bytes_on_disk, [])).2 = None.
Proof.
  assert (files Scenario.four_bytes_on_disk
            !! filepath_of Scenario.dest (Scenario.entry 0 0 Pending)
          = Some (take 4 Scenario.song)) as Hfile by (by vm_compute).
  split; [exact Hfile|].
  by rewrite (working_skips_any_nonempty_file Scenario.net_honours_range
                (Scenario.entry 0 0 Pending) 1 1 false Scenario.dest
                Scenario.four_bytes_on_disk [] (take 4 Scenario.song) Hfile).
Defined.

(** X15.  The resume branch of [working.py] is never taken: whatever the disk
    and the server, every GET that [download_file] sends is without a
    Range header (there are at most [max_retries] of them, after at most
    one HEAD probe). *)
Theorem working_never_sends_range (net : Net) (item : FileRecord)
    (idx total : nat) (skip_head : bool) (download_dest : string)
    (w : World) (failed : list string) :
  let out := WorkingFile.download_file net item idx total skip_head
               download_dest (w, failed) in
  exists probes n,
    requests out.1.1 =
      requests w ++ probes ++ replicate n (mkRequest GET (url item) None) ∧
    n <= max_retries ∧
    (probes = [] ∨ probes = [mkRequest HEAD (url item) None]).
Proof.
  cbv zeta. unfold WorkingFile.download_file. simpl.
  set (cp := path_join download_dest (category item)).
  set (fp := path_join cp (filename item)).
  set (w1 := makedirs cp w).
  destruct (path_exists fp w1 && (getsize fp w1 >? 0)%Z) eqn:Hskip.
  { exists [], 0. simpl. rewrite app_nil_r. repeat split; [lia|by left]. }
  assert ((if path_exists fp w1 then getsize fp w1 else 0%Z) = 0%Z) as Hzero.
  { pose proof (getsize_nonneg fp w1).
    destruct (path_exists fp w1); [|done]. simpl in Hskip. lia. }
  rewrite Hzero.
  assert (exists probes,
            requests (WorkingFile.head_size net item skip_head w1).2 =
              requests w ++ probes ∧
            (probes = [] ∨ probes = [mkRequest HEAD (url item) None]))
    as (probes & Hprobe & Hshape).
  { unfold WorkingFile.head_size. destruct skip_head.
    - exists []. simpl. rewrite app_nil_r. split; [done|by left].
    - exists [mkRequest HEAD (url item) None].
      destruct (head_reply _ _ _); simpl; (split; [done|by right]). }
  destruct (WorkingFile.head_size net item skip_head w1) as [size w2].
  simpl in *.
  destruct (negb (size =? 0)%Z && (0 >=? size)%Z).
  { exists probes, 0. simpl. rewrite app_nil_r. repeat split; [done|lia|done]. }
  unfold Working.download_with_retry, retry_request.
  destruct (working_retry_requests net (url item) None wb fp
              (seq 0 max_retries) w2) as (n & Hn & Hr).
  destruct (retry_loop _ _ _ _ _ _) as [w3 res]. simpl in *.
  exists probes, n.
  destruct res; simpl; rewrite Hr, Hprobe, <- app_assoc; by repeat split.
Qed.

(** * Discovery *)

Example category_name_example :
  category_name_of "Ledi/LediSayadaw.htm" = "Ledi_LediSayadaw".
Proof. reflexivity. Qed.

Example filename_example :
  filename_of_href "DhammaTalks/Ledi/talk01.mp3" = "talk01.mp3" ∧
  filename_of_href "talk01.mp3" = "talk01.mp3" ∧
  str_split "/" "a//b/" = ["a"; ""; "b"; ""].
Proof. by repeat split. Qed.

(** ** Category and file names *)

Lemma has_char_app (c : ascii) (s t : string) :
  has_char c (s +:+ t) = has_char c s || has_char c t.
Proof.
  induction s as [|d s IH]; simpl; [done|].
  rewrite IH. by rewrite orb_assoc.
Qed.

(** Replacing every occurrence of one character by a text without that
    character leaves no occurrence of it. *)
Lemma str_replace_char_gone (c : ascii) (new s : string) :
  has_char c new = false ->
  has_char c (str_replace (String c EmptyString) new s) = false.
Proof.
  intros Hnew. unfold str_replace. induction s as [|d s IH]; simpl; [done|].
  destruct (ascii_dec c d) as [->|Hne]; simpl.
  - replace (String.prefix EmptyString s) with true by (by destruct s).
    rewrite has_char_app, Hnew. simpl. exact IH.
  - rewrite IH. rewrite orb_false_r. apply Ascii.eqb_neq. congruence.
Qed.

(** X16.  The directory name built for a category link never contains a path
    separator, whatever the link: every entry of that category is stored
    directly under one directory of the destination. *)
Theorem category_name_has_no_separator (sayadaw_href : string) :
  has_char "/" (category_name_of sayadaw_href) = false.
Proof. unfold category_name_of. by apply str_replace_char_gone. Qed.

Lemma str_split_nonempty (sep : ascii) (s : string) : str_split sep s ≠ [].
Proof.
  induction s as [|c s IH]; simpl; [done|].
  destruct (Ascii.eqb c sep); [done|]. by destruct (str_split sep s).
Qed.

Lemma str_split_pieces (sep : ascii) (s : string) :
  Forall (fun piece => has_char sep piece = false) (str_split sep s).
Proof.
  induction s as [|c s IH]; simpl.
  - by repeat constructor.
  - destruct (Ascii.eqb c sep) eqn:E.
    + by constructor.
    + destruct (str_split sep s) as [|piece pieces].
      * repeat constructor. simpl. by rewrite E.
      * inversion IH as [|? ? Hp Hps]; subst. constructor; [|done].
        simpl. by rewrite E, Hp.
Qed.

Lemma str_split_last (s : string) :
  exists directory,
    s = directory +:+ List.last (str_split "/"%char s) EmptyString ∧
    match str_split "/"%char s with
    | [_] => directory = EmptyString
    | _ => ends_with_sep directory = true
    end.
Proof.
  induction s as [|c s IH]; simpl.
  - by exists EmptyString.
  - destruct IH as (pre & Hs & Hpre).
    pose proof (str_split_nonempty "/"%char s) as Hne.
    destruct (Ascii.eqb c "/"%char) eqn:E.
    + apply Ascii.eqb_eq in E as ->.
      exists (String "/"%char pre).
      destruct (str_split "/"%char s) as [|piece pieces]; [done|].
      split; [rewrite Hs at 1; reflexivity|].
      destruct pieces; [by subst pre|].
      simpl. by destruct pre.
    + destruct (str_split "/"%char s) as [|piece pieces]; [done|].
      destruct pieces as [|p2 ps].
      * subst pre. exists EmptyString. split; [|done].
        rewrite Hs at 1. reflexivity.
      * exists (String c pre). split; [rewrite Hs at 1; reflexivity|].
        simpl. by destruct pre.
Qed.

(** X17.  The file name taken from an audio link is the part after its last
    separator: it contains no separator, and the link is that name
    preceded either by nothing or by a text that ends with a separator. *)
Theorem filename_is_last_component (audio_href : string) :
  has_char "/" (filename_of_href audio_href) = false ∧
  exists directory,
    audio_href = directory +:+ filename_of_href audio_href ∧
    (directory = EmptyString ∨ ends_with_sep directory = true).
Proof.
  unfold filename_of_href. split.
  - pose proof (str_split_pieces "/"%char audio_href) as Hall.
    pose proof (str_split_nonempty "/"%char audio_href) as Hne.
    induction Hall as [|piece pieces Hp Hps IH]; [done|].
    destruct pieces as [|p2 ps]; [done|]. by apply IH.
  - destruct (str_split_last audio_href) as (pre & Hs & Hpre).
    exists pre. split; [done|].
    destruct (str_split "/"%char audio_href) as [|piece [|p2 ps]]; auto.
Qed.

(** ** The list that discovery returns *)

Section DiscoveryFacts.
Variable urljoin : string -> string -> string.
Variable find_categories : string -> list string.
Variable find_audio : string -> list string.
Variable page_reply : nat -> string -> Exn + string.

Lemma scan_categories_spec (links : list string) (acc : list FileRecord)
    (w : World) :
  let out := foldl (scan_category urljoin find_audio page_reply) (acc, w)
               links in
  out.1 =
    acc ++
    concat (imap (fun i href =>
                    category_records urljoin find_audio page_reply
                      (length (requests w) + i) href) links) ∧
  requests out.2 =
    requests w ++
    map (fun href => mkRequest GET (urljoin base_url href) None) links ∧
  cache out.2 = cache w ∧ files out.2 = files w ∧ journal out.2 = journal w.
Proof.
  revert acc w. induction links as [|href links IH]; intros acc w.
  - simpl. by rewrite !app_nil_r.
  - cbn [foldl]. cbv zeta.
    set (step := scan_category urljoin find_audio page_reply (acc, w) href).
    destruct (IH step.1 step.2) as (Hl & Hr & Hc & Hf & Hj).
    replace (foldl (scan_category urljoin find_audio page_reply) step links)
      with (foldl (scan_category urljoin find_audio page_reply)
              (step.1, step.2) links) by (by destruct step).
    rewrite Hl, Hr, Hc, Hf, Hj.
    assert (step.1 = acc ++ category_records urljoin find_audio page_reply
                             (length (requests w)) href ∧
            requests step.2 =
              requests w ++ [mkRequest GET (urljoin base_url href) None] ∧
            cache step.2 = cache w ∧ files step.2 = files w ∧
            journal step.2 = journal w) as (S1 & S2 & S3 & S4 & S5).
    { subst step. unfold scan_category, category_records, get_page. simpl.
      destruct (page_reply _ _); simpl; by rewrite ?app_nil_r. }
    rewrite S1, S2, S3, S4, S5. simpl.
    rewrite Nat.add_0_r, <- !app_assoc. repeat split; try done.
    do 3 f_equal. apply imap_ext. intros i x _. simpl.
    rewrite length_app. simpl. f_equal. lia.
Qed.

Lemma fetched_list_closed_form (w : World) :
  (fetch_audio_list urljoin find_categories find_audio page_reply w).1 =
  match page_reply (length (requests w)) main_page with
  | inl _ => []
  | inr html_content =>
      concat (imap (fun i href =>
                      category_records urljoin find_audio page_reply
                        (length (requests w) + 1 + i) href)
                (find_categories html_content))
  end.
Proof.
  unfold fetch_audio_list, get_page. cbn [fst snd].
  destruct (page_reply (length (requests w)) main_page) as [e|html]; [done|].
  pose proof (scan_categories_spec (find_categories html) []
                (send (mkRequest GET main_page None) w)) as [Hl _].
  cbn [fst snd]. rewrite Hl. simpl.
  f_equal. apply imap_ext. intros i x _. simpl.
  rewrite length_app. simpl. f_equal; lia.
Qed.


Lemma category_records_fresh (sent : nat) (href : string) :
  Forall (fun item => status item = Pending ∧
                      downloaded_bytes item = 0%Z ∧
                      total_size item = 0%Z ∧
                      has_char "/" (category item) = false ∧
                      has_char "/" (filename item) = false)
    (category_records urljoin find_audio page_reply sent href).
Proof.
  unfold category_records. destruct (page_reply _ _) as [e|html]; [done|].
  apply Forall_map, Forall_forall. intros audio_href _. simpl.
  repeat split; try done.
  - unfold category_name_of. by apply str_replace_char_gone.
  - unfold filename_of_href.
    pose proof (str_split_pieces "/"%char audio_href) as Hall.
    pose proof (str_split_nonempty "/"%char audio_href) as Hne.
    induction Hall as [|piece pieces Hp Hps IH]; [done|].
    destruct pieces as [|p2 ps]; [done|]. by apply IH.
Qed.

Lemma Forall_concat_imap {A B : Type} (P : B -> Prop)
    (f : nat -> A -> list B) (l : list A) :
  (forall i x, Forall P (f i x)) -> Forall P (concat (imap f l)).
Proof.
  intros Hf. revert f Hf. induction l as [|x l IH]; intros f Hf; simpl.
  - constructor.
  - apply Forall_app. split; [apply Hf|]. apply IH. intros i y. apply Hf.
Qed.

(** X19.  Every entry that discovery returns is new: pending, with a counter of
    0 and an unknown size; and neither its category nor its file name
    contains a path separator. *)
Theorem fetched_entries_are_fresh_and_flat (w : World) :
  Forall (fun item => status item = Pending ∧
                      downloaded_bytes item = 0%Z ∧
                      total_size item = 0%Z ∧
                      has_char "/" (category item) = false ∧
                      has_char "/" (filename item) = false)
    (fetch_audio_list urljoin find_categories find_audio page_reply w).1.
Proof.
  rewrite fetched_list_closed_form.
  destruct (page_reply (length (requests w)) main_page) as [e|html].
  - constructor.
  - apply Forall_concat_imap. intros i href. apply category_records_fresh.
Qed.


End DiscoveryFacts.

(** * An empty catalog *)

(** X21.  With an empty catalog the run has nothing to submit: no request is
    sent and no file is touched, but the final save still runs and leaves
    an empty list in the cache file, whatever it held before. *)
Theorem empty_catalog_run_saves_empty_cache (net : Net)
    (download_dest : string) (w : World) (schedule : list Event) (s : Sched) :
  main net download_dest [] w schedule = Some s ->
  finalized s = true ->
  schedule = [FinalSave] ∧
  cache (world s) = Some [] ∧
  requests (world s) = requests w ∧
  files (world s) = files w ∧
  dirs (world s) = dirs w.
Proof.
  unfold main, size_check. simpl. intros Hrun Hfin.
  destruct schedule as [|ev rest].
  - simpl in Hrun. injection Hrun as <-. done.
  - simpl in Hrun. destruct ev as [i|i|i|]; simpl in Hrun; try done.
    destruct rest as [|ev rest]; simpl in Hrun.
    + injection Hrun as <-. by repeat split.
    + by destruct ev as [i|i|i|].
Qed.

Lemma empty_catalog_run_saves_empty_cache_witness :
  exists s,
    main Scenario.net_down Scenario.dest [] Scenario.four_bytes_on_disk
      [FinalSave] = Some s ∧
    finalized s = true ∧
    cache (world s) = Some [].
Proof.
  eexists.
  match goal with
  | |- ?ran ∧ _ => assert ran as Hrun by (vm_compute; reflexivity)
  end.
  match goal with
  | |- _ ∧ ?fin ∧ _ => assert fin as Hfin by (vm_compute; reflexivity)
  end.
  destruct (empty_catalog_run_saves_empty_cache _ _ _ _ _ Hrun Hfin)
    as (_ & Hcache & _).
  split; [exact Hrun|]. split; [exact Hfin|exact Hcache].
Defined.
